(** * cdk-sops-secrets-management: the secret updater

    A shallow embedding of [lib/sops-secret.secret-updater.ts], the custom
    resource handler that decrypts a sops file and reconciles an AWS Secrets
    Manager secret with it.

    The handler is asynchronous glue code around three collaborators (S3,
    the sops binary run through [child_process.exec], Secrets Manager).  It is
    embedded as a program tree over the commands it awaits; a client, which
    answers every command with an output or an exception, runs the tree and
    records the interactions in order.  Theorems quantify over every client
    unless they name the reference store.  The [console.log] lines of the
    handler are left out: they touch none of the three collaborators. *)

From Stdlib Require Import Ascii.
From stdpp Require Import base tactics option list strings gmap.

Set Default Proof Using "Type".

(** ** Exceptions *)

(** What a rejected promise or a [throw] carries.  The code only ever tests
    [err instanceof ResourceNotFoundException]; every other SDK error is a
    [ServiceException] with its name. *)
Inductive exn : Type :=
| ResourceNotFoundException (message : string)
| ServiceException (name message : string)
| SyntaxError (message : string)
| Error (message : string).

Definition instanceof_ResourceNotFoundException (err : exn) : bool :=
  match err with
  | ResourceNotFoundException _ => true
  | _ => false
  end.

(** ** JavaScript strings *)

(** A JavaScript string is a sequence of UTF-16 code units, numbers below
    65536.  The handler looks inside one string only, the plaintext, which it
    trims: the plaintext and the secret value are sequences of code units.
    Names, keys, texts and messages are compared, concatenated or passed on
    and nothing else; they are kept as strings of the library. *)
Definition JSString : Type := list N.

(** ** Data of the AWS SDK and of the handler *)

Inductive SecretType : Type := json | yaml | dotenv | txt.

Definition SecretType_to_string (t : SecretType) : string :=
  match t with
  | json => "json"
  | yaml => "yaml"
  | dotenv => "dotenv"
  | txt => "txt"
  end.

(** [Tag] of the SDK.  The handler reads [Key] under a non-null assertion
    ([Key!]), so the field is a plain string here. *)
Record Tag : Type := { Key : string; Value : string }.

(** One entry of [DescribeSecretResponse.ReplicationStatus]; [Region] is read
    as [Region!]. *)
Record ReplicationStatusType : Type :=
  { Region : string; KmsKeyId : option string; Status : option string }.

(** One entry of [AddReplicaRegions]. *)
Record ReplicaRegionType : Type :=
  { Region' : string; KmsKeyId' : option string }.

(** [IReplicaRegionType]: the shape of a parsed [SecretReplicaRegions]
    entry. *)
Record IReplicaRegionType : Type :=
  { region : string; kmsKeyId : option string }.

Record DescribeSecretResponse : Type :=
  { Tags : option (list Tag);
    ReplicationStatus : option (list ReplicationStatusType) }.

(** A [Readable] is consumed once by [streamToString]: it either emits
    ['error'] or ends after chunks whose concatenation is the string. *)
Definition Readable : Type := exn + string.

Record GetObjectCommandOutput : Type := { Body : Readable }.

Record ExecOutput : Type := { stdout : JSString; stderr : string }.

Record ResourceProperties : Type :=
  { SecretName : string;
    SecretType' : SecretType;
    S3BucketName : string;
    S3ObjectKey : string;
    SecretKmsKeyArn : option string;
    SecretDescription : option string;
    SecretTags : option string;
    SecretPolicy : option string;
    SecretReplicaRegions : option string }.

(** The three event interfaces share one record: [handleCreate] reads only
    [ResourceProperties'], [handleDelete] only [PhysicalResourceId'].
    [RequestType] is a string because [onEvent] switches on
    [event.RequestType as string]. *)
Record Event : Type :=
  { RequestType : string;
    ResourceProperties' : ResourceProperties;
    PhysicalResourceId' : string }.

Record Response : Type := { PhysicalResourceId : string }.

(** ** Commands *)

(** Everything the handler awaits: [s3Client.send], [exec] and
    [secretsManagerClient.send], with the fields the code fills in. *)
Inductive Command : Type :=
| GetObjectCommand (Bucket Key : string)
| exec (command : string)
| DescribeSecretCommand (SecretId : string)
| UpdateSecretCommand (SecretId : string) (Description : option string)
    (SecretString : JSString) (KmsKeyId : option string)
| CreateSecretCommand (Name : string) (Description : option string)
    (SecretString : JSString) (KmsKeyId : option string)
| UntagResourceCommand (SecretId : string) (TagKeys : list string)
| TagResourceCommand (SecretId : string) (Tags : list Tag)
| PutResourcePolicyCommand (SecretId : string) (ResourcePolicy : string)
| DeleteResourcePolicyCommand (SecretId : string)
| RemoveRegionsFromReplicationCommand (SecretId : string)
    (RemoveReplicaRegions : list string)
| ReplicateSecretToRegionsCommand (SecretId : string)
    (AddReplicaRegions : list ReplicaRegionType)
| DeleteSecretCommand (SecretId : string) (ForceDeleteWithoutRecovery : bool).

(** The output a command resolves to.  The handler reads the output of three
    commands only. *)
Definition Output (c : Command) : Type :=
  match c with
  | GetObjectCommand _ _ => GetObjectCommandOutput
  | exec _ => ExecOutput
  | DescribeSecretCommand _ => DescribeSecretResponse
  | _ => unit
  end.

(** ** Asynchronous programs *)

(** An [async] computation: it resolves ([Ret]), rejects ([Throw]) or awaits
    a command and continues with the output or the exception. *)
Inductive Prog (A : Type) : Type :=
| Ret (a : A)
| Throw (err : exn)
| Await (c : Command) (k : exn + Output c → Prog A).
Arguments Ret {A} a.
Arguments Throw {A} err.
Arguments Await {A} c k.

Fixpoint bind {A B : Type} (p : Prog A) (k : A → Prog B) : Prog B :=
  match p with
  | Ret a => k a
  | Throw err => Throw err
  | Await c k' => Await c (λ r, bind (k' r) k)
  end.

#[global] Instance Prog_ret : MRet Prog := @Ret.
#[global] Instance Prog_bind : MBind Prog := λ A B k p, bind p k.

(** [await client.send(c)] outside a [try]: the exception propagates. *)
Definition send (c : Command) : Prog (Output c) :=
  Await c (λ r, match r with inl err => Throw err | inr out => Ret out end).

(** [try { p } catch (err) { h err }]. *)
Fixpoint try_catch {A : Type} (p : Prog A) (h : exn → Prog A) : Prog A :=
  match p with
  | Ret a => Ret a
  | Throw err => h err
  | Await c k => Await c (λ r, try_catch (k r) h)
  end.

(** A synchronous computation that may throw, awaited or returned. *)
Definition of_result {A : Type} (r : exn + A) : Prog A :=
  match r with
  | inl err => Throw err
  | inr a => Ret a
  end.

(** ** Running a program against a client *)

(** One awaited command with what it settled to. *)
Inductive Interaction : Type :=
| Sent (c : Command) (r : exn + Output c).

Definition command_of (i : Interaction) : Command :=
  match i with Sent c _ => c end.

Definition error_of (i : Interaction) : option exn :=
  match i with
  | Sent _ (inl err) => Some err
  | Sent _ (inr _) => None
  end.

Section Run.
Context {St : Type}.
Variable client : ∀ c : Command, St → (exn + Output c) * St.

(** The settled value, the client's final state and the interactions in
    the order they happened. *)
Fixpoint run {A : Type} (p : Prog A) (st : St)
  : (exn + A) * St * list Interaction :=
  match p with
  | Ret a => (inr a, st, [])
  | Throw err => (inl err, st, [])
  | Await c k =>
      let '(r, st') := client c st in
      let '(res, st'', tr) := run (k r) st' in
      (res, st'', Sent c r :: tr)
  end.

Definition result {A : Type} (p : Prog A) (st : St) : exn + A :=
  (run p st).1.1.
Definition final {A : Type} (p : Prog A) (st : St) : St :=
  (run p st).1.2.
Definition trace {A : Type} (p : Prog A) (st : St) : list Interaction :=
  (run p st).2.
Definition calls {A : Type} (p : Prog A) (st : St) : list Command :=
  command_of <$> trace p st.
End Run.

(** ** JavaScript built-ins *)

(** Truthiness of an optional string property: [undefined] and [''] are
    falsy. *)
Definition truthy (s : option string) : bool :=
  match s with
  | Some (String _ _) => true
  | _ => false
  end.

(** [a?.length] used as a condition: [undefined] and [0] are falsy. *)
Definition optional_length {A : Type} (a : option (list A)) : nat :=
  match a with
  | Some l => length l
  | None => 0
  end.

(** [Array.prototype.includes] on strings. *)
Definition includes (l : list string) (x : string) : bool :=
  existsb (String.eqb x) l.

(** [WhiteSpace] and [LineTerminator] of ECMAScript, the code points that
    [String.prototype.trim] strips: TAB, VT, FF, the byte order mark U+FEFF,
    the space separators of Unicode (SP, NBSP, U+1680, U+2000 to U+200A,
    U+202F, U+205F, U+3000), LF, CR, U+2028 and U+2029.  Each is one code
    unit, and no half of a surrogate pair is among them. *)
Definition isWhiteSpace (c : N) : bool :=
  bool_decide
    (c ∈ [0x0009; 0x000B; 0x000C; 0xFEFF;
          0x0020; 0x00A0; 0x1680; 0x202F; 0x205F; 0x3000;
          0x000A; 0x000D; 0x2028; 0x2029]%N)
  || ((0x2000 <=? c) && (c <=? 0x200A))%N.

Fixpoint trimStart (s : JSString) : JSString :=
  match s with
  | c :: s' => if isWhiteSpace c then trimStart s' else s
  | [] => []
  end.

Fixpoint trimEnd (s : JSString) : JSString :=
  match s with
  | c :: s' =>
      match trimEnd s' with
      | [] => if isWhiteSpace c then [] else [c]
      | t => c :: t
      end
  | [] => []
  end.

(** [String.prototype.trim]. *)
Definition trim (s : JSString) : JSString := trimEnd (trimStart s).

(** [JSON.parse] at the type the code annotates its result with; it throws
    a [SyntaxError] on malformed text. *)
Class JSON (A : Type) : Type := JSON_parse : string → exn + A.

(** ** The handler *)

Section Updater.
Context `{!JSON (list (string * string)), !JSON (list IReplicaRegionType)}.

(** [streamToString]. *)
Definition streamToString (stream : Readable) : Prog string :=
  of_result stream.

(** The command line [decodeSops] hands to the shell. *)
Definition sops_command (content : string) (inputType : SecretType) : string :=
  "echo '" +:+ content +:+ "' | /opt/sops -d --input-type "
    +:+ SecretType_to_string inputType +:+ " --output-type "
    +:+ SecretType_to_string inputType +:+ " -d /dev/stdin".

Definition decodeSops (content : string) (inputType : SecretType)
  : Prog JSString :=
  out ← send (exec (sops_command content inputType));
  if truthy (Some (stderr out))
  then Throw (Error ("sops command failed with: " +:+ stderr out))
  else mret (stdout out).

(** [props.SecretTags ? JSON.parse(props.SecretTags) : []]. *)
Definition parse_or_empty {A : Type} `{!JSON (list A)} (text : option string)
  : exn + list A :=
  if truthy text then JSON_parse (default "" text) else inr [].

Definition upsertSecret (props : ResourceProperties) : Prog unit :=
  (* Get encoded secret file from S3 and decode it using sops *)
  response ← send (GetObjectCommand (S3BucketName props) (S3ObjectKey props));
  secretBody ← streamToString (Body response);
  decodedSecret ← decodeSops secretBody (SecretType' props);
  (* Check if the secret already exists and grab its tags and replica
     regions if it does *)
  '(secretExists, existingTags, existingReplicaRegions) ←
    try_catch
      (response ← send (DescribeSecretCommand (SecretName props));
       mret (true, Tags response, ReplicationStatus response))
      (λ err,
         if instanceof_ResourceNotFoundException err
         then mret (false, None, None)
         else Throw err);
  (* Update or create the secret *)
  (if secretExists : bool
   then send (UpdateSecretCommand (SecretName props) (SecretDescription props)
                (trim decodedSecret) (SecretKmsKeyArn props))
   else send (CreateSecretCommand (SecretName props) (SecretDescription props)
                (trim decodedSecret) (SecretKmsKeyArn props)));;
  (* Parse tags (if they exist in props) *)
  newTags ← of_result
    (parse_or_empty (A := string * string) (SecretTags props));
  (* Remove existing tags not present in props.Tags *)
  (if bool_decide (optional_length existingTags ≠ 0)
   then
     let existingTags := default [] existingTags in
     let tagKeys := fst <$> newTags in
     let tagsToRemove :=
       List.filter (λ t, negb (includes tagKeys (Key t))) existingTags in
     if bool_decide (length tagsToRemove ≠ 0)
     then send (UntagResourceCommand (SecretName props) (Key <$> existingTags))
     else mret tt
   else mret tt);;
  (* Add tags to secret *)
  (if bool_decide (length newTags ≠ 0)
   then send (TagResourceCommand (SecretName props)
                ((λ kv, {| Key := kv.1; Value := kv.2 |}) <$> newTags))
   else mret tt);;
  (* Update the resource policy or delete it if not defined in props *)
  (if truthy (SecretPolicy props)
   then send (PutResourcePolicyCommand (SecretName props)
                (default "" (SecretPolicy props)))
   else
     try_catch
       (send (DeleteResourcePolicyCommand (SecretName props)))
       (λ err,
          if negb (instanceof_ResourceNotFoundException err)
          then Throw err
          else mret tt));;
  (* Parse replica regions (if they exist in props) *)
  newReplicatRegions ← of_result
    (parse_or_empty (A := IReplicaRegionType) (SecretReplicaRegions props));
  (* Remove existing replica regions not present in
     props.SecretReplicaRegions *)
  (if secretExists && bool_decide (optional_length existingReplicaRegions ≠ 0)
   then
     let existingReplicaRegions := default [] existingReplicaRegions in
     let regionNames := region <$> newReplicatRegions in
     let existingRegionNames := Region <$> existingReplicaRegions in
     let regionsToRemove :=
       List.filter (λ regionName, negb (includes regionNames regionName))
         existingRegionNames in
     if bool_decide (length regionsToRemove ≠ 0)
     then send (RemoveRegionsFromReplicationCommand (SecretName props)
                  regionsToRemove)
     else mret tt
   else mret tt);;
  (* Add new replica regions *)
  (if bool_decide (length newReplicatRegions ≠ 0)
   then send (ReplicateSecretToRegionsCommand (SecretName props)
                ((λ r, {| Region' := region r; KmsKeyId' := kmsKeyId r |})
                   <$> newReplicatRegions))
   else mret tt).

Definition handleCreate (event : Event) : Prog Response :=
  let props := ResourceProperties' event in
  upsertSecret props;;
  mret {| PhysicalResourceId := SecretName props |}.

Definition handleUpdate (event : Event) : Prog Response :=
  let props := ResourceProperties' event in
  upsertSecret props;;
  mret {| PhysicalResourceId := PhysicalResourceId' event |}.

Definition handleDelete (event : Event) : Prog Response :=
  (* Describe secret; the [catch] returns from the handler *)
  describeSecretResponse ←
    try_catch
      (response ← send (DescribeSecretCommand (PhysicalResourceId' event));
       mret (inr response))
      (λ err,
         if negb (instanceof_ResourceNotFoundException err)
         then Throw err
         else mret (inl {| PhysicalResourceId := PhysicalResourceId' event |}));
  match describeSecretResponse with
  | inl early => mret early
  | inr describeSecretResponse =>
      (* Delete replica regions from secret *)
      (if bool_decide
            (optional_length (ReplicationStatus describeSecretResponse) ≠ 0)
       then send (RemoveRegionsFromReplicationCommand
                    (PhysicalResourceId' event)
                    (Region <$> default []
                                  (ReplicationStatus describeSecretResponse)))
       else mret tt);;
      (* Delete the secret *)
      send (DeleteSecretCommand (PhysicalResourceId' event) true);;
      mret {| PhysicalResourceId := PhysicalResourceId' event |}
  end.

(** The synchronous body of [onEvent]'s [try] block: it returns a promise
    or throws. *)
Definition onEvent_try (event : Event) : exn + Prog Response :=
  let eventType := RequestType event in
  if String.eqb eventType "Create" then inr (handleCreate event)
  else if String.eqb eventType "Update" then inr (handleUpdate event)
  else if String.eqb eventType "Delete" then inr (handleDelete event)
  else inl (Error ("Unknown event type " +:+ eventType)).

Definition onEvent (event : Event) : Prog Response :=
  match onEvent_try event with
  | inr promise => promise
  | inl err => Throw (Error "Failed")
  end.
End Updater.

(** ** A reference secret store *)

(** Modelled from the spec: the remote secret store and the two other
    collaborators (blob source, decrypt capability) are external services,
    not code of this repository.  The reference store follows the
    operations the spec lists: describe-by-name, create, update-value, delete
    with a permanent-delete flag, bulk tag and untag, put and delete
    resource-policy, bulk add and remove of replica regions.  A call on a
    missing secret answers "resource not found"; adding a region that is
    already present is a no-op; clearing a policy that is not attached answers
    "resource not found"; a secret holds at most 50 tags; a secret with
    replicas cannot be deleted. *)
Record Secret : Type :=
  { secret_value : JSString;
    secret_description : option string;
    secret_kms_key : option string;
    secret_tags : gmap string string;
    secret_policy : option string;
    secret_replicas : gmap string (option string) }.

Record Environment : Type :=
  { blob_source : string → string → exn + GetObjectCommandOutput;
    decrypt : string → exn + ExecOutput }.

Definition tag_limit : nat := 50.

Definition not_found (name : string) : exn :=
  ResourceNotFoundException ("Secrets Manager can't find " +:+ name).

(** Apply [f] to the secret [name], or answer "resource not found". *)
Definition on_secret (name : string) (f : Secret → exn + Secret)
    (store : gmap string Secret) : (exn + unit) * gmap string Secret :=
  match store !! name with
  | None => (inl (not_found name), store)
  | Some s =>
      match f s with
      | inl err => (inl err, store)
      | inr s' => (inr tt, <[name := s']> store)
      end
  end.

Definition set_value (v : JSString) (d k : option string) (s : Secret)
  : Secret :=
  {| secret_value := v;
     secret_description := if d is Some _ then d else secret_description s;
     secret_kms_key := if k is Some _ then k else secret_kms_key s;
     secret_tags := secret_tags s;
     secret_policy := secret_policy s;
     secret_replicas := secret_replicas s |}.

Definition set_tags (t : gmap string string) (s : Secret) : Secret :=
  {| secret_value := secret_value s;
     secret_description := secret_description s;
     secret_kms_key := secret_kms_key s;
     secret_tags := t;
     secret_policy := secret_policy s;
     secret_replicas := secret_replicas s |}.

Definition set_policy (p : option string) (s : Secret) : Secret :=
  {| secret_value := secret_value s;
     secret_description := secret_description s;
     secret_kms_key := secret_kms_key s;
     secret_tags := secret_tags s;
     secret_policy := p;
     secret_replicas := secret_replicas s |}.

Definition set_replicas (r : gmap string (option string)) (s : Secret) : Secret :=
  {| secret_value := secret_value s;
     secret_description := secret_description s;
     secret_kms_key := secret_kms_key s;
     secret_tags := secret_tags s;
     secret_policy := secret_policy s;
     secret_replicas := r |}.

Definition untag (keys : list string) (t : gmap string string)
  : gmap string string :=
  foldr delete t keys.

Definition tag (new : list Tag) (t : gmap string string) : gmap string string :=
  foldr (λ x, insert (Key x) (Value x)) t new.

Definition describe (s : Secret) : DescribeSecretResponse :=
  {| Tags :=
       Some ((λ kv, {| Key := kv.1; Value := kv.2 |})
               <$> map_to_list (secret_tags s));
     ReplicationStatus :=
       Some ((λ kv, {| Region := kv.1; KmsKeyId := kv.2;
                       Status := Some "InSync" |})
               <$> map_to_list (secret_replicas s)) |}.

(** Modelled from the spec: how the three collaborators answer a command.
    The blob source and the decrypt step answer as [env] says and keep no
    state; the secret store answers from, and updates, its secrets. *)
Definition store_client (env : Environment) (c : Command)
  : gmap string Secret → (exn + Output c) * gmap string Secret :=
  match c as c return gmap string Secret → (exn + Output c) * gmap string Secret with
  | GetObjectCommand b k => λ store, (blob_source env b k, store)
  | exec command => λ store, (decrypt env command, store)
  | DescribeSecretCommand name => λ store,
      match store !! name with
      | None => (inl (not_found name), store)
      | Some s => (inr (describe s), store)
      end
  | UpdateSecretCommand name d v k =>
      on_secret name (λ s, inr (set_value v d k s))
  | CreateSecretCommand name d v k => λ store,
      match store !! name with
      | Some _ =>
          (inl (ServiceException "ResourceExistsException" name), store)
      | None =>
          (inr tt,
           <[name := {| secret_value := v; secret_description := d;
                        secret_kms_key := k; secret_tags := ∅;
                        secret_policy := None; secret_replicas := ∅ |}]> store)
      end
  | UntagResourceCommand name keys =>
      on_secret name (λ s, inr (set_tags (untag keys (secret_tags s)) s))
  | TagResourceCommand name new =>
      on_secret name (λ s,
        let t := tag new (secret_tags s) in
        if bool_decide (size t ≤ tag_limit)
        then inr (set_tags t s)
        else inl (ServiceException "InvalidParameterException" "too many tags"))
  | PutResourcePolicyCommand name p =>
      on_secret name (λ s, inr (set_policy (Some p) s))
  | DeleteResourcePolicyCommand name =>
      on_secret name (λ s,
        if secret_policy s is Some _
        then inr (set_policy None s)
        else inl (ResourceNotFoundException "no policy attached"))
  | RemoveRegionsFromReplicationCommand name regions =>
      on_secret name (λ s,
        inr (set_replicas (foldr delete (secret_replicas s) regions) s))
  | ReplicateSecretToRegionsCommand name regions =>
      on_secret name (λ s,
        inr (set_replicas
               (foldr (λ r m, if m !! Region' r is Some _ then m
                              else <[Region' r := KmsKeyId' r]> m)
                  (secret_replicas s) regions) s))
  | DeleteSecretCommand name force => λ store,
      match store !! name with
      | None => (inl (not_found name), store)
      | Some s =>
          if bool_decide (secret_replicas s = ∅)
          then (inr tt, if force then delete name store else store)
          else (inl (ServiceException "InvalidRequestException"
                       "the secret has replicas"), store)
      end
  end.


(** ** Kinds of commands and interactions *)

(** The commands that change the remote secret. *)
Definition mutating (c : Command) : bool :=
  match c with
  | GetObjectCommand _ _ | exec _ | DescribeSecretCommand _ => false
  | _ => true
  end.

(** The decrypt step failed to run or printed a diagnostic. *)
Definition decode_failed (i : Interaction) : bool :=
  match i with
  | Sent c r =>
      match c as c return exn + Output c → bool with
      | exec _ => λ r,
          match r with
          | inl _ => true
          | inr out => truthy (Some (stderr out))
          end
      | _ => λ _, false
      end r
  end.

(** The secret value a create or update call carries. *)
Definition written_value (c : Command) : option JSString :=
  match c with
  | UpdateSecretCommand _ _ v _ | CreateSecretCommand _ _ v _ => Some v
  | _ => None
  end.

(** The plaintext of a decrypt step that ran and printed no diagnostic. *)
Definition decoded (i : Interaction) : option JSString :=
  match i with
  | Sent c r =>
      match c as c return exn + Output c → option JSString with
      | exec _ => λ r,
          match r with
          | inl _ => None
          | inr out =>
              if truthy (Some (stderr out)) then None else Some (stdout out)
          end
      | _ => λ _, None
      end r
  end.

Fixpoint all_whitespace (s : JSString) : bool :=
  match s with
  | c :: s' => isWhiteSpace c && all_whitespace s'
  | [] => true
  end.

Definition starts_with_whitespace (s : JSString) : bool :=
  match s with
  | c :: _ => isWhiteSpace c
  | [] => false
  end.

Fixpoint ends_with_whitespace (s : JSString) : bool :=
  match s with
  | [c] => isWhiteSpace c
  | _ :: s' => ends_with_whitespace s'
  | [] => false
  end.

(** [t] is [s] without its leading and trailing whitespace: [s] is [t]
    between two runs of whitespace, and [t] neither starts nor ends with
    whitespace. *)
Definition trimmed (s t : JSString) : Prop :=
  ∃ l r : JSString,
    s = l ++ t ++ r ∧
    all_whitespace l = true ∧ all_whitespace r = true ∧
    starts_with_whitespace t = false ∧ ends_with_whitespace t = false.

(** The calls the handler awaits outside any [try]: tag, untag,
    put-resource-policy, remove-regions and replicate. *)
Definition strict (c : Command) : bool :=
  match c with
  | UntagResourceCommand _ _ | TagResourceCommand _ _
  | PutResourcePolicyCommand _ _
  | RemoveRegionsFromReplicationCommand _ _
  | ReplicateSecretToRegionsCommand _ _ => true
  | _ => false
  end.

Definition is_policy_call (c : Command) : bool :=
  match c with
  | PutResourcePolicyCommand _ _ | DeleteResourcePolicyCommand _ => true
  | _ => false
  end.

Definition is_clear_policy (c : Command) : bool :=
  match c with
  | DeleteResourcePolicyCommand _ => true
  | _ => false
  end.

Definition is_region_call (c : Command) : bool :=
  match c with
  | RemoveRegionsFromReplicationCommand _ _
  | ReplicateSecretToRegionsCommand _ _ => true
  | _ => false
  end.

(** The regions to remove: the existing ones whose name is not the name of
    a desired one.  Key references play no part. *)
Definition regions_to_remove (desired : list IReplicaRegionType)
    (response : DescribeSecretResponse) : list string :=
  List.filter (λ regionName, negb (includes (region <$> desired) regionName))
    (Region <$> default [] (ReplicationStatus response)).

(** The regions to add: every desired one, with its key reference. *)
Definition regions_to_add (desired : list IReplicaRegionType)
  : list ReplicaRegionType :=
  (λ r, {| Region' := region r; KmsKeyId' := kmsKeyId r |}) <$> desired.

(** The keys that are attached remotely and absent from the desired tags:
    the keys of [tagsToRemove]. *)
Definition tag_keys_to_remove (desired : list (string * string))
    (response : DescribeSecretResponse) : list string :=
  Key <$> List.filter (λ t, negb (includes desired.*1 (Key t)))
            (default [] (Tags response)).

Definition is_untag (c : Command) : bool :=
  match c with
  | UntagResourceCommand _ _ => true
  | _ => false
  end.

Definition is_tag (c : Command) : bool :=
  match c with
  | TagResourceCommand _ _ => true
  | _ => false
  end.

(** The response of a describe call that resolved. *)
Definition described (i : Interaction) : option DescribeSecretResponse :=
  match i with
  | Sent c r =>
      match c as c return exn + Output c → option DescribeSecretResponse with
      | DescribeSecretCommand _ => λ r,
          match r with
          | inl _ => None
          | inr response => Some response
          end
      | _ => λ _, None
      end r
  end.

(** A client that answers as [client] does, except that it reports success
    where [client] answers "resource not found" to a delete-resource-policy
    call. *)
Definition forgiving {St : Type}
    (client : ∀ c : Command, St → (exn + Output c) * St)
    (c : Command) (st : St) : (exn + Output c) * St :=
  match c as c return (exn + Output c) * St → (exn + Output c) * St with
  | DeleteResourcePolicyCommand _ => λ answer,
      match answer with
      | (inl (ResourceNotFoundException _), st') => (inr tt, st')
      | _ => answer
      end
  | _ => λ answer, answer
  end (client c st).

(** A client that rejects the commands [bad] with [err] and answers the
    others as [client] does. *)
Definition failing_on {St : Type} (bad : Command → bool) (err : exn)
    (client : ∀ c : Command, St → (exn + Output c) * St)
    (c : Command) (st : St) : (exn + Output c) * St :=
  if bad c then (inl err, st) else client c st.

(** The blob source and the decrypt step of [env] deliver the plaintext of
    the secret: the object is there, its stream ends, and the decrypt step
    runs without diagnostic. *)
Definition delivers (env : Environment) (props : ResourceProperties) : Prop :=
  ∃ body out,
    blob_source env (S3BucketName props) (S3ObjectKey props)
      = inr {| Body := inr body |} ∧
    decrypt env (sops_command body (SecretType' props)) = inr out ∧
    stderr out = "".

(** ** A safety judgement on programs *)

(** [sat P R h p]: when [p] starts after the interactions [h], every
    interaction it adds satisfies [P] of the interactions before it, and the
    value it settles to satisfies [R] of all the interactions. *)
Fixpoint sat {A : Type} (P : list Interaction → Interaction → Prop)
    (R : list Interaction → exn + A → Prop) (h : list Interaction)
    (p : Prog A) : Prop :=
  match p with
  | Ret a => R h (inr a)
  | Throw err => R h (inl err)
  | Await c k => ∀ r, P h (Sent c r) ∧ sat P R (h ++ [Sent c r]) (k r)
  end.

(** ** The end of an upsert *)

Section Tail.
Context `{!JSON (list IReplicaRegionType)}.

(** The last steps of [upsertSecret], from the resource policy on, as a
    program of their own: what [upsertSecret] continues with once the tags
    are reconciled. *)
Definition upsertSecret_policy_and_regions (props : ResourceProperties)
    (secretExists : bool)
    (existingReplicaRegions : option (list ReplicationStatusType))
  : Prog unit :=
  (if truthy (SecretPolicy props)
   then send (PutResourcePolicyCommand (SecretName props)
                (default "" (SecretPolicy props)))
   else
     try_catch
       (send (DeleteResourcePolicyCommand (SecretName props)))
       (λ err,
          if negb (instanceof_ResourceNotFoundException err)
          then Throw err
          else mret tt));;
  newReplicatRegions ← of_result
    (parse_or_empty (A := IReplicaRegionType) (SecretReplicaRegions props));
  (if secretExists && bool_decide (optional_length existingReplicaRegions ≠ 0)
   then
     let existingReplicaRegions := default [] existingReplicaRegions in
     let regionNames := region <$> newReplicatRegions in
     let existingRegionNames := Region <$> existingReplicaRegions in
     let regionsToRemove :=
       List.filter (λ regionName, negb (includes regionNames regionName))
         existingRegionNames in
     if bool_decide (length regionsToRemove ≠ 0)
     then send (RemoveRegionsFromReplicationCommand (SecretName props)
                  regionsToRemove)
     else mret tt
   else mret tt);;
  (if bool_decide (length newReplicatRegions ≠ 0)
   then send (ReplicateSecretToRegionsCommand (SecretName props)
                ((λ r, {| Region' := region r; KmsKeyId' := kmsKeyId r |})
                   <$> newReplicatRegions))
   else mret tt).
End Tail.
(** ** Sample inputs *)

(** [JSON.parse] as a table from text to value; any other text is
    malformed. *)
Fixpoint parse_table {A : Type} (table : list (string * A)) (text : string)
  : exn + A :=
  match table with
  | [] => inl (SyntaxError "Unexpected token in JSON")
  | (t, v) :: table' =>
      if String.eqb t text then inr v else parse_table table' text
  end.

Definition quoted (s : string) : string :=
  String "034"%char s +:+ String "034"%char "".

(** [[["env","prod"]]], what the construct serialises for one tag. *)
Definition env_prod_text : string :=
  "[[" +:+ quoted "env" +:+ "," +:+ quoted "prod" +:+ "]]".

(** [[["env","staging"],["team","x"]]]. *)
Definition env_staging_team_x_text : string :=
  "[[" +:+ quoted "env" +:+ "," +:+ quoted "staging" +:+ "],["
       +:+ quoted "team" +:+ "," +:+ quoted "x" +:+ "]]".

(** [[{"region":"us-east-1"}]]. *)
Definition us_east_1_text : string :=
  "[{" +:+ quoted "region" +:+ ":" +:+ quoted "us-east-1" +:+ "}]".

Definition sample_tags_JSON : JSON (list (string * string)) :=
  parse_table
    [(env_prod_text, [("env", "prod")]);
     (env_staging_team_x_text, [("env", "staging"); ("team", "x")])].

Definition sample_regions_JSON : JSON (list IReplicaRegionType) :=
  parse_table
    [(us_east_1_text, [{| region := "us-east-1"; kmsKeyId := None |}])].

Definition sample_name : string := "/sops/sample-secret-json".

(** A definition with one tag, no policy and no replica. *)
Definition sample_props : ResourceProperties :=
  {| SecretName := sample_name;
     SecretType' := json;
     S3BucketName := "cdk-assets";
     S3ObjectKey := "sample-secret.json";
     SecretKmsKeyArn := None;
     SecretDescription := None;
     SecretTags := Some env_prod_text;
     SecretPolicy := None;
     SecretReplicaRegions := None |}.

(** The same secret with the tags [env: staging] and [team: x]. *)
Definition staging_props : ResourceProperties :=
  {| SecretName := sample_name;
     SecretType' := json;
     S3BucketName := "cdk-assets";
     S3ObjectKey := "sample-secret.json";
     SecretKmsKeyArn := None;
     SecretDescription := None;
     SecretTags := Some env_staging_team_x_text;
     SecretPolicy := None;
     SecretReplicaRegions := None |}.

(** The same definition replicated to one region. *)
Definition replicated_props : ResourceProperties :=
  {| SecretName := sample_name;
     SecretType' := json;
     S3BucketName := "cdk-assets";
     S3ObjectKey := "sample-secret.json";
     SecretKmsKeyArn := None;
     SecretDescription := None;
     SecretTags := Some env_prod_text;
     SecretPolicy := None;
     SecretReplicaRegions := Some us_east_1_text |}.

(** The three code units of the text [{ }]. *)
Definition braces : JSString := [0x7B; 0x20; 0x7D]%N.

(** The plaintext [{ }] between two line feeds, and no diagnostic. *)
Definition sample_output : ExecOutput :=
  {| stdout := [0x0A]%N ++ braces ++ [0x0A]%N; stderr := "" |}.

(** A decrypt step that succeeds with the plaintext between blank lines. *)
Definition sample_env : Environment :=
  {| blob_source := λ _ _, inr {| Body := inr "ENC[AES256_GCM,data:...]" |};
     decrypt := λ _, inr sample_output |}.

(** A plaintext beyond Latin-1: a byte order mark and a line feed, then two
    ideographs around an ideographic space U+3000, then a line separator
    U+2028 and a line feed. *)
Definition wide_output : ExecOutput :=
  {| stdout := [0xFEFF; 0x000A; 0x4E2D; 0x3000; 0x6587; 0x2028; 0x000A]%N;
     stderr := "" |}.

Definition wide_env : Environment :=
  {| blob_source := λ _ _, inr {| Body := inr "ENC[AES256_GCM,data:...]" |};
     decrypt := λ _, inr wide_output |}.

(** A decrypt step that prints a diagnostic. *)
Definition failing_env : Environment :=
  {| blob_source := λ _ _, inr {| Body := inr "ENC[AES256_GCM,data:...]" |};
     decrypt := λ _,
       inr {| stdout := []; stderr := "Failed to get the data key" |} |}.

Definition sample_secret : Secret :=
  {| secret_value := braces;
     secret_description := None;
     secret_kms_key := None;
     secret_tags := {[ "env" := "staging"; "team" := "x" ]};
     secret_policy := None;
     secret_replicas := {[ "eu-west-1" := None; "us-west-2" := None ]} |}.

(** A store that holds the sample secret with the tags [env: staging] and
    [team: x] and two replicas. *)
Definition sample_store : gmap string Secret :=
  {[ sample_name := sample_secret ]}.

Definition sample_event (type : string) : Event :=
  {| RequestType := type;
     ResourceProperties' := sample_props;
     PhysicalResourceId' := sample_name |}.


(** ** More kinds of commands and interactions *)

(** The step of [upsertSecret] that awaits a command, in the order of the
    source; [DeleteSecretCommand] belongs to [handleDelete] alone. *)
Definition step (c : Command) : nat :=
  match c with
  | GetObjectCommand _ _ => 0
  | exec _ => 1
  | DescribeSecretCommand _ => 2
  | UpdateSecretCommand _ _ _ _ | CreateSecretCommand _ _ _ _ => 3
  | UntagResourceCommand _ _ => 4
  | TagResourceCommand _ _ => 5
  | PutResourcePolicyCommand _ _ | DeleteResourcePolicyCommand _ => 6
  | RemoveRegionsFromReplicationCommand _ _ => 7
  | ReplicateSecretToRegionsCommand _ _ => 8
  | DeleteSecretCommand _ _ => 9
  end.

(** The secret a Secrets Manager command names ([SecretId], or [Name] for a
    create). *)
Definition secret_of (c : Command) : option string :=
  match c with
  | GetObjectCommand _ _ | exec _ => None
  | DescribeSecretCommand n
  | UpdateSecretCommand n _ _ _
  | CreateSecretCommand n _ _ _
  | UntagResourceCommand n _
  | TagResourceCommand n _
  | PutResourcePolicyCommand n _
  | DeleteResourcePolicyCommand n
  | RemoveRegionsFromReplicationCommand n _
  | ReplicateSecretToRegionsCommand n _
  | DeleteSecretCommand n _ => Some n
  end.

(** The string a resolved [GetObjectCommand] streams, when the stream ends
    without error. *)
Definition fetched (i : Interaction) : option string :=
  match i with
  | Sent c r =>
      match c as c return exn + Output c → option string with
      | GetObjectCommand _ _ => λ r,
          match r with
          | inr out => if Body out is inr body then Some body else None
          | inl _ => None
          end
      | _ => λ _, None
      end r
  end.

(** The ['error'] a resolved [GetObjectCommand]'s stream emits. *)
Definition stream_error (i : Interaction) : option exn :=
  match i with
  | Sent c r =>
      match c as c return exn + Output c → option exn with
      | GetObjectCommand _ _ => λ r,
          match r with
          | inr out => if Body out is inl err then Some err else None
          | inl _ => None
          end
      | _ => λ _, None
      end r
  end.

(** The error [decodeSops] throws for a decrypt step that printed a
    diagnostic. *)
Definition diagnostic (i : Interaction) : option exn :=
  match i with
  | Sent c r =>
      match c as c return exn + Output c → option exn with
      | exec _ => λ r,
          match r with
          | inr out =>
              if truthy (Some (stderr out))
              then Some (Error ("sops command failed with: " +:+ stderr out))
              else None
          | inl _ => None
          end
      | _ => λ _, None
      end r
  end.

Definition is_describe (c : Command) : bool :=
  match c with
  | DescribeSecretCommand _ => true
  | _ => false
  end.

Definition is_write (c : Command) : bool :=
  match c with
  | UpdateSecretCommand _ _ _ _ | CreateSecretCommand _ _ _ _ => true
  | _ => false
  end.

Definition is_tagging (c : Command) : bool :=
  match c with
  | UntagResourceCommand _ _ | TagResourceCommand _ _ => true
  | _ => false
  end.

(** The exception of an interaction that the handlers do not catch: any
    exception, except "resource not found" from a describe or from a
    delete-resource-policy call. *)
Definition fatal (i : Interaction) : option exn :=
  match error_of i with
  | Some err =>
      if (is_describe (command_of i) || is_clear_policy (command_of i))
         && instanceof_ResourceNotFoundException err
      then None
      else Some err
  | None => None
  end.

(** ** The steps of an upsert *)

(** The statements of [upsertSecret] between two of its comments, each as a
    program of its own. *)
Definition describe_step (props : ResourceProperties)
  : Prog (bool * option (list Tag) * option (list ReplicationStatusType)) :=
  try_catch
    (response ← send (DescribeSecretCommand (SecretName props));
     mret (true, Tags response, ReplicationStatus response))
    (λ err,
       if instanceof_ResourceNotFoundException err
       then mret (false, None, None)
       else Throw err).

Definition write_step (props : ResourceProperties) (secretExists : bool)
    (decodedSecret : JSString) : Prog unit :=
  if secretExists
  then send (UpdateSecretCommand (SecretName props) (SecretDescription props)
               (trim decodedSecret) (SecretKmsKeyArn props))
  else send (CreateSecretCommand (SecretName props) (SecretDescription props)
               (trim decodedSecret) (SecretKmsKeyArn props)).

Definition untag_step (props : ResourceProperties)
    (existingTags : option (list Tag)) (newTags : list (string * string))
  : Prog unit :=
  if bool_decide (optional_length existingTags ≠ 0)
  then
    let existingTags := default [] existingTags in
    let tagKeys := fst <$> newTags in
    let tagsToRemove :=
      List.filter (λ t, negb (includes tagKeys (Key t))) existingTags in
    if bool_decide (length tagsToRemove ≠ 0)
    then send (UntagResourceCommand (SecretName props) (Key <$> existingTags))
    else mret tt
  else mret tt.

Definition tag_step (props : ResourceProperties)
    (newTags : list (string * string)) : Prog unit :=
  if bool_decide (length newTags ≠ 0)
  then send (TagResourceCommand (SecretName props)
               ((λ kv, {| Key := kv.1; Value := kv.2 |}) <$> newTags))
  else mret tt.

Definition policy_step (props : ResourceProperties) : Prog unit :=
  if truthy (SecretPolicy props)
  then send (PutResourcePolicyCommand (SecretName props)
               (default "" (SecretPolicy props)))
  else
    try_catch
      (send (DeleteResourcePolicyCommand (SecretName props)))
      (λ err,
         if negb (instanceof_ResourceNotFoundException err)
         then Throw err
         else mret tt).

Definition remove_regions_step (props : ResourceProperties)
    (secretExists : bool)
    (existingReplicaRegions : option (list ReplicationStatusType))
    (newReplicatRegions : list IReplicaRegionType) : Prog unit :=
  if secretExists && bool_decide (optional_length existingReplicaRegions ≠ 0)
  then
    let existingReplicaRegions := default [] existingReplicaRegions in
    let regionNames := region <$> newReplicatRegions in
    let existingRegionNames := Region <$> existingReplicaRegions in
    let regionsToRemove :=
      List.filter (λ regionName, negb (includes regionNames regionName))
        existingRegionNames in
    if bool_decide (length regionsToRemove ≠ 0)
    then send (RemoveRegionsFromReplicationCommand (SecretName props)
                 regionsToRemove)
    else mret tt
  else mret tt.

Definition replicate_step (props : ResourceProperties)
    (newReplicatRegions : list IReplicaRegionType) : Prog unit :=
  if bool_decide (length newReplicatRegions ≠ 0)
  then send (ReplicateSecretToRegionsCommand (SecretName props)
               ((λ r, {| Region' := region r; KmsKeyId' := kmsKeyId r |})
                  <$> newReplicatRegions))
  else mret tt.

(** [p] resolves with [a] and leaves the client in the state [st']. *)
Definition settles {A St : Type}
    (client : ∀ c : Command, St → (exn + Output c) * St)
    (p : Prog A) (st : St) (a : A) (st' : St) : Prop :=
  result client p st = inr a ∧ final client p st = st'.

(** ** What an upsert leaves on the reference store *)

(** The replicas of the reference store after a replicate call: a region
    that is present keeps its key reference. *)
Definition add_replicas (regions : list ReplicaRegionType)
    (m : gmap string (option string)) : gmap string (option string) :=
  foldr (λ r m, if m !! Region' r is Some _ then m
                else <[Region' r := KmsKeyId' r]> m) m regions.

(** The replicas after the two region steps of an upsert with the desired
    regions [desired] on a secret [s] of the reference store. *)
Definition reconciled_replicas (desired : list IReplicaRegionType)
    (s : Secret) : gmap string (option string) :=
  add_replicas (regions_to_add desired)
    (foldr delete (secret_replicas s) (regions_to_remove desired (describe s))).

(** The policy an upsert asks for: the text of [SecretPolicy], none when the
    property is absent or empty. *)
Definition desired_policy (props : ResourceProperties) : option string :=
  if truthy (SecretPolicy props) then SecretPolicy props else None.

(** The secret of the reference store after the create or update call. *)
Definition written (props : ResourceProperties) (value : JSString)
    (old : option Secret) : Secret :=
  match old with
  | Some s => set_value value (SecretDescription props) (SecretKmsKeyArn props) s
  | None =>
      {| secret_value := value;
         secret_description := SecretDescription props;
         secret_kms_key := SecretKmsKeyArn props;
         secret_tags := ∅;
         secret_policy := None;
         secret_replicas := ∅ |}
  end.

(** The secret of the reference store after a whole upsert that wrote
    [value] and parsed the tags [tags] and the regions [regions]. *)
Definition upserted (props : ResourceProperties) (value : JSString)
    (tags : list (string * string)) (regions : list IReplicaRegionType)
    (old : option Secret) : Secret :=
  let s := written props value old in
  set_replicas (reconciled_replicas regions s)
    (set_policy (desired_policy props) (set_tags (list_to_map tags) s)).

(** * The construct

    A shallow embedding of [lib/sops-secret.ts], the CDK construct that
    declares a secret.  Its constructor runs at synthesis time: it checks
    the declaration, uploads the encrypted file as an asset, finds or
    creates the provider whose function is the handler above, and declares
    the custom resource whose properties the handler receives as
    [ResourceProperties].

    The classes of the CDK are library code.  The embedding keeps of them
    what the constructor reads and writes: the id of the stack and its child
    [SecretCreatorProvider], the statements added to the role of the handler
    function and the assets it may read, the bucket and key of an asset.
    Their own constructors ([Construct], [Asset], [LayerVersion],
    [NodejsFunction], [Provider], [CustomResource]) are taken to return; the
    exceptions of the embedding are the three the file itself throws.
    [path.extname], [JSON.stringify] and the asset are taken as
    parameters. *)

Record ITag : Type := { key : string; value : string }.

Record PolicyStatement : Type :=
  { actions : list string; resources : list string }.

(** [iam.PolicyDocument]: the construct only serialises it. *)
Record PolicyDocument : Type := { statements : list PolicyStatement }.

Record ISopsSecretProps : Type :=
  { path : string;
    secretType : option SecretType;
    secretName : string;
    kmsKeyArn : string;
    secretKmsKeyArn : option string;
    secretDescription : option string;
    secretTags : option (list ITag);
    secretPolicy : option PolicyDocument;
    secretReplicaRegions : option (list IReplicaRegionType) }.

Record Asset : Type := { s3BucketName : string; s3ObjectKey : string }.

(** The handler function: the export it runs, the statements of its role
    policy in the order they were added, the assets it was granted to
    read. *)
Record NodejsFunction : Type :=
  { handler : string;
    rolePolicy : list PolicyStatement;
    readable : list Asset }.

Record Provider : Type := { onEventHandler : NodejsFunction }.

(** What the constructor sees of [Stack.of(this)]: [stackId] and
    [node.tryFindChild('SecretCreatorProvider')]. *)
Record Stack : Type :=
  { stackId : string;
    SecretCreatorProvider : option Provider }.

(** [JSON.stringify] at the type of its argument. *)
Class Stringify (A : Type) : Type := JSON_stringify : A → string.

Definition addToRolePolicy (statement : PolicyStatement) (provider : Provider)
  : Provider :=
  {| onEventHandler :=
       {| handler := handler (onEventHandler provider);
          rolePolicy := rolePolicy (onEventHandler provider) ++ [statement];
          readable := readable (onEventHandler provider) |} |}.

Definition grantRead (asset : Asset) (provider : Provider) : Provider :=
  {| onEventHandler :=
       {| handler := handler (onEventHandler provider);
          rolePolicy := rolePolicy (onEventHandler provider);
          readable := readable (onEventHandler provider) ++ [asset] |} |}.

(** The statement [getOrCreateProvider] gives the role of a new handler
    function. *)
Definition secretsmanager_statement : PolicyStatement :=
  {| actions :=
       ["secretsmanager:CreateSecret";
        "secretsmanager:UpdateSecret";
        "secretsmanager:DeleteSecret";
        "secretsmanager:DescribeSecret";
        "secretsmanager:ListSecrets";
        "secretsmanager:PutSecretValue";
        "secretsmanager:GetResourcePolicy";
        "secretsmanager:PutResourcePolicy";
        "secretsmanager:DeleteResourcePolicy";
        "secretsmanager:TagResource";
        "secretsmanager:UntagResource";
        "secretsmanager:ReplicateSecretToRegions";
        "secretsmanager:RemoveRegionsFromReplication"];
     resources := ["*"] |}.

(** [getOrCreateProvider]: the provider of the stack if it has one, a new
    one otherwise. *)
Definition getOrCreateProvider (stack : Stack) : Provider :=
  match SecretCreatorProvider stack with
  | Some provider => provider
  | None =>
      {| onEventHandler :=
           {| handler := "onEvent";
              rolePolicy := [secretsmanager_statement];
              readable := [] |} |}
  end.

Definition kms_statement (keyArn : string) : PolicyStatement :=
  {| actions := ["kms:Decrypt"; "kms:DescribeKey"; "kms:GenerateDataKey"];
     resources := [keyArn] |}.

Definition trackingKey (stack : Stack) (props : ISopsSecretProps) : string :=
  stackId stack +:+ "-" +:+ secretName props.

Section Construct.
Context `{!Stringify (list (string * string)),
          !Stringify (list IReplicaRegionType),
          !Stringify PolicyDocument}.
Variable extname : string → string.
Variable Asset_new : string → Asset.

(** The file type: the one given, or the one of the file extension. *)
Definition infer_secretType (props : ISopsSecretProps) : exn + SecretType :=
  match secretType props with
  | Some secretType => inr secretType
  | None =>
      let fileExtension := extname (path props) in
      if String.eqb fileExtension ".json" then inr json
      else if String.eqb fileExtension ".yaml" then inr yaml
      else if String.eqb fileExtension ".yml" then inr yaml
      else if String.eqb fileExtension ".env" then inr dotenv
      else if String.eqb fileExtension ".txt" then inr txt
      else inl (Error "Could not infer file type from file name")
  end.

(** The properties of the custom resource. *)
Definition properties (props : ISopsSecretProps) (secretType : SecretType)
    (asset : Asset) : ResourceProperties :=
  {| SecretName := secretName props;
     SecretType' := secretType;
     SecretDescription := secretDescription props;
     S3BucketName := s3BucketName asset;
     S3ObjectKey := s3ObjectKey asset;
     SecretKmsKeyArn := secretKmsKeyArn props;
     SecretTags :=
       match secretTags props with
       | Some tags => Some (JSON_stringify ((λ t, (key t, value t)) <$> tags))
       | None => None
       end;
     SecretPolicy :=
       match secretPolicy props with
       | Some policy => Some (JSON_stringify policy)
       | None => None
       end;
     SecretReplicaRegions :=
       match secretReplicaRegions props with
       | Some regions => Some (JSON_stringify regions)
       | None => None
       end |}.

(** The constructor, in the static [nameTracker]: it throws or returns
    with the stack and the properties of the declared custom resource.  A
    tracking key holds a hyphen, so the [in] test meets no inherited
    property of the tracker object. *)
Definition SopsSecret (stack : Stack) (props : ISopsSecretProps)
    (nameTracker : gmap string bool)
  : (exn + Stack * ResourceProperties) * gmap string bool :=
  (* Check that props.secretName is unique *)
  if bool_decide (is_Some (nameTracker !! trackingKey stack props))
  then (inl (Error "SopsSecret must have unique secretName"), nameTracker)
  else
    let nameTracker := <[trackingKey stack props := true]> nameTracker in
    (* Validate tags *)
    if match secretTags props with
       | Some tags => bool_decide (50 < length tags)
       | None => false
       end
    then (inl (Error "Can not set more-than 50 tags"), nameTracker)
    else
      (* If secretType is not set, derive it from the file extension *)
      match infer_secretType props with
      | inl err => (inl err, nameTracker)
      | inr secretType =>
          let asset := Asset_new (path props) in
          let provider := getOrCreateProvider stack in
          let provider :=
            addToRolePolicy (kms_statement (kmsKeyArn props)) provider in
          let provider :=
            if truthy (secretKmsKeyArn props)
            then addToRolePolicy
                   (kms_statement (default "" (secretKmsKeyArn props)))
                   provider
            else provider in
          let provider := grantRead asset provider in
          (inr ({| stackId := stackId stack;
                   SecretCreatorProvider := Some provider |},
                properties props secretType asset),
           nameTracker)
      end.

(** A stack that declares the secrets [declarations] in order, as the
    loop of the test suite does; the first exception ends the
    synthesis. *)
Fixpoint SopsSecrets (stack : Stack) (declarations : list ISopsSecretProps)
    (nameTracker : gmap string bool)
  : (exn + Stack * list ResourceProperties) * gmap string bool :=
  match declarations with
  | [] => (inr (stack, []), nameTracker)
  | props :: declarations =>
      match SopsSecret stack props nameTracker with
      | (inl err, nameTracker) => (inl err, nameTracker)
      | (inr (stack, resource), nameTracker) =>
          match SopsSecrets stack declarations nameTracker with
          | (inl err, nameTracker) => (inl err, nameTracker)
          | (inr (stack, resources), nameTracker) =>
              (inr (stack, resource :: resources), nameTracker)
          end
      end
  end.

(** The declaration passes the checks of the constructor that do not
    depend on the tracker. *)
Definition well_formed (props : ISopsSecretProps) : Prop :=
  length (default [] (secretTags props)) ≤ 50 ∧
  (is_Some (secretType props) ∨
   extname (path props) ∈ [".json"; ".yaml"; ".yml"; ".env"; ".txt"]).
End Construct.

(** The statements the constructor adds to the role of the handler function
    for one declaration: one for the key of the file and, when its arn is
    given and not empty, one for the key of the secret. *)
Definition key_statements (props : ISopsSecretProps) : list PolicyStatement :=
  kms_statement (kmsKeyArn props)
  :: (if truthy (secretKmsKeyArn props)
      then [kms_statement (default "" (secretKmsKeyArn props))]
      else []).

(** ** More sample inputs *)

(** The sample definition with a tags text that is not JSON. *)
Definition malformed_tags_props : ResourceProperties :=
  {| SecretName := sample_name;
     SecretType' := json;
     S3BucketName := "cdk-assets";
     S3ObjectKey := "sample-secret.json";
     SecretKmsKeyArn := None;
     SecretDescription := None;
     SecretTags := Some "env=prod";
     SecretPolicy := None;
     SecretReplicaRegions := None |}.

(** The sample definition with a regions text that is not JSON. *)
Definition malformed_regions_props : ResourceProperties :=
  {| SecretName := sample_name;
     SecretType' := json;
     S3BucketName := "cdk-assets";
     S3ObjectKey := "sample-secret.json";
     SecretKmsKeyArn := None;
     SecretDescription := None;
     SecretTags := Some env_prod_text;
     SecretPolicy := None;
     SecretReplicaRegions := Some "us-east-1" |}.

(** An Update of a resource whose physical id is another name than the one
    in its properties. *)
Definition renaming_event : Event :=
  {| RequestType := "Update";
     ResourceProperties' := sample_props;
     PhysicalResourceId' := "/sops/former-name" |}.

(** A Delete of the sample secret whose properties name another secret. *)
Definition delete_event : Event :=
  {| RequestType := "Delete";
     ResourceProperties' := malformed_tags_props;
     PhysicalResourceId' := sample_name |}.

Definition quota_exceeded : exn :=
  ServiceException "LimitExceededException" "too many requests".

(** [path.extname] on the sample paths. *)
Definition sample_extname (p : string) : string :=
  if String.eqb p "secrets/sample-secret.json" then ".json"
  else if String.eqb p "secrets/other-secret.yml" then ".yml"
  else "".

Definition sample_Asset_new (p : string) : Asset :=
  {| s3BucketName := "cdk-assets";
     s3ObjectKey :=
       if String.eqb p "secrets/sample-secret.json" then "sample-secret.json"
       else "other-secret.yml" |}.

(** [JSON.stringify] on the sample tags: the inverse of the sample
    [JSON.parse]. *)
Definition sample_tags_Stringify : Stringify (list (string * string)) :=
  λ pairs,
    if bool_decide (pairs = [("env", "prod")]) then env_prod_text
    else if bool_decide (pairs = [("env", "staging"); ("team", "x")])
         then env_staging_team_x_text
         else "[]".

Definition sample_regions_Stringify : Stringify (list IReplicaRegionType) :=
  λ regions,
    match regions with
    | [{| region := name; kmsKeyId := None |}] =>
        if String.eqb name "us-east-1" then us_east_1_text else "[]"
    | _ => "[]"
    end.

Definition sample_policy_Stringify : Stringify PolicyDocument :=
  λ _, "{}".

Definition sample_stack : Stack :=
  {| stackId := "SecretsManagementStack"; SecretCreatorProvider := None |}.

Definition sample_key_arn : string :=
  "arn:aws:kms:ap-southeast-2:123456789123:key/sops".

(** The declaration the sample properties come from. *)
Definition sample_declaration : ISopsSecretProps :=
  {| path := "secrets/sample-secret.json";
     secretType := None;
     secretName := sample_name;
     kmsKeyArn := sample_key_arn;
     secretKmsKeyArn := None;
     secretDescription := None;
     secretTags := Some [{| key := "env"; value := "prod" |}];
     secretPolicy := None;
     secretReplicaRegions := None |}.

(** A second declaration, of another name, with a key for the secret. *)
Definition other_declaration : ISopsSecretProps :=
  {| path := "secrets/other-secret.yml";
     secretType := None;
     secretName := "/sops/other-secret";
     kmsKeyArn := sample_key_arn;
     secretKmsKeyArn := Some "arn:aws:kms:ap-southeast-2:123456789123:key/sm";
     secretDescription := None;
     secretTags := None;
     secretPolicy := None;
     secretReplicaRegions := None |}.

(** A declaration of the sample name whose file type cannot be inferred. *)
Definition untyped_declaration : ISopsSecretProps :=
  {| path := "secrets/notes";
     secretType := None;
     secretName := sample_name;
     kmsKeyArn := sample_key_arn;
     secretKmsKeyArn := None;
     secretDescription := None;
     secretTags := None;
     secretPolicy := None;
     secretReplicaRegions := None |}.
(** * Properties *)

(** ** Running sequenced programs *)

Section RunFacts.
Context {St : Type} (client : ∀ c : Command, St → (exn + Output c) * St).

(** The run of [p ≫= k] is the run of [p] followed, when [p] resolves, by
    the run of [k] from the state [p] left. *)
Lemma run_bind {A B : Type} (p : Prog A) (k : A → Prog B) (st : St) :
  run client (p ≫= k) st =
    match run client p st with
    | (inl err, st', tr) => (inl err, st', tr)
    | (inr a, st', tr) =>
        let '(res, st'', tr') := run client (k a) st' in
        (res, st'', tr ++ tr')
    end.
Proof.
  revert st. induction p as [a|err|c k' IH]; intros st; simpl.
  - unfold mbind, Prog_bind. simpl. by destruct (run client (k a) st) as [[??]?].
  - done.
  - unfold mbind, Prog_bind in *. simpl.
    destruct (client c st) as [r st']. rewrite IH.
    destruct (run client (k' r) st') as [[[err|a] st''] tr]; [done|].
    by destruct (run client (k a) st'') as [[??]?].
Qed.

Lemma run_send (c : Command) (st : St) :
  run client (send c) st =
    ((client c st).1, (client c st).2, [Sent c (client c st).1]).
Proof. simpl. by destruct (client c st) as [[?|?] ?]. Qed.
End RunFacts.

Lemma elem_of_middle {A : Type} (x : A) (pre post : list A) :
  x ∈ pre ++ x :: post.
Proof. apply elem_of_app. right. apply elem_of_cons. by left. Qed.

Lemma elem_of_snoc {A : Type} (x : A) (pre : list A) : x ∈ pre ++ [x].
Proof. apply elem_of_middle. Qed.

(** Where an interaction can sit in a trace that starts with [a]. *)
Lemma app_cons_inv {A : Type} (a x : A) (l pre post : list A) :
  a :: l = pre ++ x :: post →
  (pre = [] ∧ a = x ∧ l = post) ∨ (∃ pre', pre = a :: pre' ∧ l = pre' ++ x :: post).
Proof.
  destruct pre as [|b pre']; simpl; intros [= -> ->]; [by left|right; eauto].
Qed.

(** Symbolic execution of a handler against an arbitrary client: split on
    every answer of the client and on every condition the code tests. *)
Ltac unfold_handler :=
  unfold result, final, calls, trace, upsertSecret, handleCreate, handleUpdate,
    handleDelete, decodeSops, streamToString, send, of_result, mbind, mret,
    Prog_bind, Prog_ret.

Ltac run_step client :=
  match goal with
  | |- context [client ?c ?st] => destruct (client c st) as [[?|?] ?] eqn:?
  | |- context [match ?x with _ => _ end] => is_var x; destruct x
  | |- context [match ?x with _ => _ end] =>
      lazymatch x with
      | context [@run] => fail
      | _ => destruct x eqn:?
      end
  end.

Ltac handler_cbn :=
  cbn -[trim sops_command parse_or_empty includes truthy optional_length
        default regions_to_remove regions_to_add tag_keys_to_remove].

Ltac run_cases client :=
  unfold_handler;
  repeat (handler_cbn; try run_step client).

(** ** Dispatch *)

Section Dispatch.
Context `{!JSON (list (string * string)), !JSON (list IReplicaRegionType)}.
Context {St : Type} (client : ∀ c : Command, St → (exn + Output c) * St).

(** C10. An event whose [RequestType] is not Create, Update or Delete makes
    [onEvent] return a promise rejected with [Error "Failed"] (whatever the
    type was, its "Unknown event type" diagnostic is dropped) without any
    call; for a recognised type [onEvent] runs exactly as the matching
    handler does, so that a rejection of the handler is the rejection of
    [onEvent], unchanged. *)
Theorem onEvent_dispatch (event : Event) (st : St) :
  (RequestType event ∉ ["Create"; "Update"; "Delete"] →
     run client (onEvent event) st = (inl (Error "Failed"), st, [])) ∧
  (RequestType event = "Create" →
     run client (onEvent event) st = run client (handleCreate event) st) ∧
  (RequestType event = "Update" →
     run client (onEvent event) st = run client (handleUpdate event) st) ∧
  (RequestType event = "Delete" →
     run client (onEvent event) st = run client (handleDelete event) st).
Proof.
  unfold onEvent, onEvent_try.
  split_and!.
  - intros Hnot.
    destruct (String.eqb_spec (RequestType event) "Create") as [E|_];
      [rewrite E in Hnot; set_solver|].
    destruct (String.eqb_spec (RequestType event) "Update") as [E|_];
      [rewrite E in Hnot; set_solver|].
    destruct (String.eqb_spec (RequestType event) "Delete") as [E|_];
      [rewrite E in Hnot; set_solver|].
    done.
  - by intros ->.
  - by intros ->.
  - by intros ->.
Qed.
End Dispatch.


(** ** Soundness of the safety judgement *)

Lemma sat_sound {A St : Type} (client : ∀ c : Command, St → (exn + Output c) * St)
    (P : list Interaction → Interaction → Prop)
    (R : list Interaction → exn + A → Prop) (p : Prog A) :
  ∀ h st,
    sat P R h p →
    R (h ++ trace client p st) (result client p st) ∧
    ∀ pre j post, trace client p st = pre ++ j :: post → P (h ++ pre) j.
Proof.
  unfold trace, result.
  induction p as [a|err|c k IH]; intros h st Hsat; simpl in *.
  - rewrite app_nil_r. split; [done|]. by intros [|??] ???.
  - rewrite app_nil_r. split; [done|]. by intros [|??] ???.
  - destruct (client c st) as [r st'] eqn:Hc.
    destruct (Hsat r) as [HP Hk].
    destruct (IH r (h ++ [Sent c r]) st' Hk) as [HR Hpos].
    destruct (run client (k r) st') as [[res st''] tr]. simpl in *.
    split; [by rewrite <- app_assoc in HR|].
    intros pre j post Heq. apply app_cons_inv in Heq.
    destruct Heq as [(-> & <- & <-) | (pre' & -> & Heq)].
    + by rewrite app_nil_r.
    + specialize (Hpos _ _ _ Heq). by rewrite <- app_assoc in Hpos.
Qed.

(** For a whole run: the judgement from the empty history. *)
Lemma sat_run {A St : Type} (client : ∀ c : Command, St → (exn + Output c) * St)
    (P : list Interaction → Interaction → Prop)
    (R : list Interaction → exn + A → Prop) (p : Prog A) (st : St) :
  sat P R [] p →
  R (trace client p st) (result client p st) ∧
  ∀ pre j post, trace client p st = pre ++ j :: post → P pre j.
Proof. intros Hsat. exact (sat_sound client P R p [] st Hsat). Qed.

(** Walk every path of a handler: [tacP] closes the obligation of each
    interaction, [tacR] the obligation of each way to settle. *)
Ltac sat_walk P R tacP tacR :=
  handler_cbn;
  lazymatch goal with
  | |- ∀ r : _, _ =>
      intros [?|?]; (split; [tacP | sat_walk P R tacP tacR])
  | |- sat _ _ _ ?p =>
      match p with
      | context [match ?x with _ => _ end] =>
          destruct x eqn:?; sat_walk P R tacP tacR
      end
  | |- _ => tacR
  end.

Ltac sat_start P R :=
  unfold_handler;
  lazymatch goal with
  | |- sat ?P0 ?R0 _ _ =>
      let HP := fresh "HP" in
      let HR := fresh "HR" in
      remember P0 as P eqn:HP; remember R0 as R eqn:HR
  end.

(** ** Trimming *)

Lemma trimStart_spec (s : JSString) :
  ∃ l, s = l ++ trimStart s ∧ all_whitespace l = true ∧
       starts_with_whitespace (trimStart s) = false.
Proof.
  induction s as [|a s (l & Hs & Hl & Hstart)]; simpl.
  - by exists [].
  - destruct (isWhiteSpace a) eqn:Ha.
    + exists (a :: l).
      split_and!; [exact (f_equal (cons a) Hs) | simpl; by rewrite Ha, Hl | done].
    + exists []. simpl. by rewrite Ha.
Qed.

Lemma trimEnd_spec (s : JSString) :
  ∃ r, s = trimEnd s ++ r ∧ all_whitespace r = true ∧
       ends_with_whitespace (trimEnd s) = false.
Proof.
  induction s as [|a s (r & Hs & Hr & Hend)]; simpl.
  - by exists [].
  - destruct (trimEnd s) as [|b t] eqn:Ht.
    + destruct (isWhiteSpace a) eqn:Ha.
      * exists (a :: r). simpl. by rewrite Ha, Hr, Hs.
      * exists r. split_and!; [exact (f_equal (cons a) Hs)|done|simpl; by rewrite Ha].
    + exists r. split_and!; [exact (f_equal (cons a) Hs)|done|done].
Qed.

Lemma trimEnd_start (s : JSString) :
  starts_with_whitespace s = false →
  starts_with_whitespace (trimEnd s) = false.
Proof.
  destruct s as [|a s]; simpl; [done|]. intros Ha.
  destruct (trimEnd s); [by rewrite Ha|done].
Qed.

(** [trim] removes the leading and the trailing whitespace and nothing
    else. *)
Lemma trim_spec (s : JSString) : trimmed s (trim s).
Proof.
  destruct (trimStart_spec s) as (l & Hs & Hl & Hstart).
  destruct (trimEnd_spec (trimStart s)) as (r & Ht & Hr & Hend).
  exists l, r. unfold trim. split_and!; [|done|done| |done].
  - by rewrite <- Ht.
  - by apply trimEnd_start.
Qed.
(** ** Delete *)

(** Untagging, or removing the replicas of, every key of a map empties it. *)
Lemma foldr_delete_all {V : Type} (m : gmap string V) :
  foldr delete m (map_to_list m).*1 = ∅.
Proof.
  apply map_eq; intros k. rewrite lookup_empty.
  destruct (m !! k) as [v|] eqn:Hk.
  - apply lookup_foldr_delete, list_elem_of_fmap.
    exists (k, v). split; [done|]. by apply elem_of_map_to_list.
  - destruct (decide (k ∈ (map_to_list m).*1)).
    + by apply lookup_foldr_delete.
    + by rewrite lookup_foldr_delete_not_elem_of.
Qed.

Lemma describe_regions (s : Secret) :
  Region <$> default [] (ReplicationStatus (describe s)) =
    (map_to_list (secret_replicas s)).*1.
Proof. simpl. rewrite <- list_fmap_compose. by apply list_fmap_ext. Qed.

Lemma describe_keys (s : Secret) :
  Key <$> default [] (Tags (describe s)) = (map_to_list (secret_tags s)).*1.
Proof. simpl. rewrite <- list_fmap_compose. by apply list_fmap_ext. Qed.

(** C4. If the describe-by-name of a Delete answers "resource not found",
    [handleDelete] resolves with the same identity and its only call is that
    describe; on the reference store, a Delete followed by a second Delete of
    the same identity resolves both times, the second one after the describe
    alone. *)
Theorem handleDelete_idempotent {St : Type}
    (client : ∀ c : Command, St → (exn + Output c) * St)
    (event : Event) (st st' : St) (message : string) :
  client (DescribeSecretCommand (PhysicalResourceId' event)) st
    = (inl (ResourceNotFoundException message), st') →
  run client (handleDelete event) st
    = (inr {| PhysicalResourceId := PhysicalResourceId' event |}, st',
       [Sent (DescribeSecretCommand (PhysicalResourceId' event))
          (inl (ResourceNotFoundException message))]) ∧
  ∀ (env : Environment) (store : gmap string Secret),
    let first := run (store_client env) (handleDelete event) store in
    let second := run (store_client env) (handleDelete event) first.1.2 in
    first.1.1 = inr {| PhysicalResourceId := PhysicalResourceId' event |} ∧
    second
      = (inr {| PhysicalResourceId := PhysicalResourceId' event |}, first.1.2,
         [Sent (DescribeSecretCommand (PhysicalResourceId' event))
            (inl (not_found (PhysicalResourceId' event)))]).
Proof.
  intros Hdescribe. split.
  - unfold_handler. simpl. by rewrite Hdescribe.
  - intros env store. set (name := PhysicalResourceId' event).
    assert (Hgone : ∀ store' : gmap string Secret,
      store' !! name = None →
      run (store_client env) (handleDelete event) store'
        = (inr {| PhysicalResourceId := name |}, store',
           [Sent (DescribeSecretCommand name) (inl (not_found name))])).
    { intros store' Hnone. unfold_handler. simpl. fold name. by rewrite Hnone. }
    destruct (store !! name) as [s|] eqn:Hs.
    + assert (Hfirst : (run (store_client env) (handleDelete event) store).1.1
                = inr {| PhysicalResourceId := name |} ∧
              (run (store_client env) (handleDelete event) store).1.2 !! name
                = None).
      { unfold_handler. cbn -[describe]. fold name. rewrite Hs. cbn -[describe].
        case_bool_decide as Hlen; cbn -[describe].
        - unfold on_secret. rewrite Hs. cbn -[describe].
          rewrite lookup_insert_eq. cbn -[describe].
          rewrite describe_regions, foldr_delete_all, bool_decide_eq_true_2
            by done.
          split; [done|]. apply lookup_delete_eq.
        - simpl in Hlen. rewrite length_fmap in Hlen.
          assert (Hempty : secret_replicas s = ∅).
          { apply map_to_list_empty_iff, nil_length_inv.
            destruct (length _); [done|]. by destruct Hlen. }
          rewrite Hs. simpl. rewrite bool_decide_eq_true_2 by done. simpl.
          split; [done|]. apply lookup_delete_eq. }
      destruct Hfirst as [Hres Hnone]. cbv zeta. split; [done|].
      by apply Hgone.
    + cbv zeta. rewrite (Hgone store Hs). split; [done|]. by apply Hgone.
Qed.

(** The second of two Deletes on the sample store meets the not-found
    answer. *)
Lemma handleDelete_idempotent_witness :
  run (store_client sample_env) (handleDelete (sample_event "Delete")) ∅
    = (inr {| PhysicalResourceId := sample_name |}, ∅,
       [Sent (DescribeSecretCommand sample_name)
          (inl (not_found sample_name))]).
Proof.
  apply (handleDelete_idempotent (store_client sample_env)
           (sample_event "Delete") ∅ ∅).
  reflexivity.
Defined.

(** C5. A Delete whose describe reports one or more replica regions sends
    exactly one remove-regions call, carrying every reported region, right
    after the describe; the delete call comes only after that call has
    resolved, it is the last call, and it sets [ForceDeleteWithoutRecovery]. *)
Theorem handleDelete_removes_replicas_first {St : Type}
    (client : ∀ c : Command, St → (exn + Output c) * St)
    (event : Event) (st st1 : St) (response : DescribeSecretResponse) :
  client (DescribeSecretCommand (PhysicalResourceId' event)) st
    = (inr response, st1) →
  optional_length (ReplicationStatus response) ≠ 0 →
  let name := PhysicalResourceId' event in
  let regions := Region <$> default [] (ReplicationStatus response) in
  let removal :=
    client (RemoveRegionsFromReplicationCommand name regions) st1 in
  trace client (handleDelete event) st =
    Sent (DescribeSecretCommand name) (inr response)
    :: Sent (RemoveRegionsFromReplicationCommand name regions) removal.1
    :: match removal.1 with
       | inl _ => []
       | inr _ =>
           [Sent (DeleteSecretCommand name true)
              (client (DeleteSecretCommand name true) removal.2).1]
       end.
Proof.
  intros Hdescribe Hlen. unfold_handler. cbn. rewrite Hdescribe. cbn.
  rewrite bool_decide_eq_true_2 by done. cbn.
  destruct (client (RemoveRegionsFromReplicationCommand _ _) st1)
    as [[err|[]] st2]; cbn; [done|].
  by destruct (client (DeleteSecretCommand _ true) st2) as [[?|?] ?].
Qed.

(** On the sample store, whose secret has two replicas, the three calls of
    a Delete are describe, remove-regions and delete. *)
Lemma handleDelete_removes_replicas_first_witness :
  calls (store_client sample_env) (handleDelete (sample_event "Delete"))
    sample_store
  = [DescribeSecretCommand sample_name;
     RemoveRegionsFromReplicationCommand sample_name ["us-west-2"; "eu-west-1"];
     DeleteSecretCommand sample_name true].
Proof.
  unfold calls.
  rewrite (handleDelete_removes_replicas_first (store_client sample_env)
             (sample_event "Delete") sample_store sample_store
             (describe sample_secret));
    [reflexivity | reflexivity | vm_compute; discriminate].
Defined.

(** Rewrite the goal with the equations the case analysis left. *)
Ltac rewrite_goal :=
  repeat match goal with
         | E : _ = _ |- _ => rewrite E
         end.

Section Upsert.
Context `{!JSON (list (string * string)), !JSON (list IReplicaRegionType)}.
Context {St : Type} (client : ∀ c : Command, St → (exn + Output c) * St).

(** No call follows a failed decrypt step, and a failed decrypt step has
    only reads before it. *)
Lemma upsertSecret_decode_gate (props : ResourceProperties) :
  sat (λ h j,
         Forall (λ i, decode_failed i = false) h ∧
         (decode_failed j = true →
          Forall (λ i, mutating (command_of i) = false) (h ++ [j])))
      (λ h res,
         Forall (λ i, decode_failed i = false) h ∨ ∃ err, res = inl err)
      [] (upsertSecret props).
Proof.
  sat_start P R.
  sat_walk P R
    ltac:(subst P; handler_cbn; split;
          [repeat constructor; handler_cbn; congruence
          |try done; intros _; by repeat constructor])
    ltac:(subst R; handler_cbn;
          first [right; by eauto
                |left; repeat constructor; handler_cbn; congruence]).
Qed.

(** C8. [decodeSops] resolves only when the decrypt step ran and printed
    no diagnostic, and then with its standard output; when the decrypt step
    of an upsert fails to run or prints a diagnostic, that step is the last
    interaction of the upsert, the upsert rejects, and no command that
    changes the remote secret has been sent. *)
Theorem decode_failure_aborts (props : ResourceProperties) (st : St) :
  (∀ content inputType st0 plaintext,
     result client (decodeSops content inputType) st0 = inr plaintext →
     ∃ out st1,
       client (exec (sops_command content inputType)) st0 = (inr out, st1) ∧
       stderr out = "" ∧ plaintext = stdout out) ∧
  (∀ pre i post,
     trace client (upsertSecret props) st = pre ++ i :: post →
     decode_failed i = true →
     post = [] ∧
     (∃ err, result client (upsertSecret props) st = inl err) ∧
     Forall (λ j, mutating (command_of j) = false) (pre ++ [i])).
Proof.
  split.
  - intros content inputType st0 plaintext. unfold_handler. cbn.
    destruct (client _ st0) as [[err|[out diag]] st1]; cbn; [done|].
    destruct diag; cbn; [|done]. intros [= <-]. eauto.
  - intros pre i post Htrace Hfail.
    destruct (sat_run client _ _ _ st (upsertSecret_decode_gate props))
      as [HR HP].
    split_and!.
    + destruct post as [|j post]; [done|].
      destruct (HP (pre ++ [i]) j post) as [Hnone _].
      { by rewrite <- app_assoc. }
      rewrite Forall_forall in Hnone.
      specialize (Hnone i (elem_of_snoc i pre)). simpl in Hnone. congruence.
    + destruct HR as [Hnone|?]; [|done]. rewrite Htrace in Hnone.
      rewrite Forall_forall in Hnone.
      specialize (Hnone i (elem_of_middle i pre post)). simpl in Hnone.
      congruence.
    + by apply (HP pre i post).
Qed.

(** Every create or update carries the trimmed plaintext of the decrypt
    step before it. *)
Lemma upsertSecret_written_value (props : ResourceProperties) :
  sat (λ h i,
         ∀ v, written_value (command_of i) = Some v →
              ∃ j plaintext,
                j ∈ h ∧ decoded j = Some plaintext ∧
                v = trim plaintext ∧ trimmed plaintext v)
      (λ _ _, True)
      [] (upsertSecret props).
Proof.
  sat_start P R.
  sat_walk P R
    ltac:(subst P; handler_cbn; intros v Hv;
          first
            [done
            |injection Hv as <-;
             match goal with
             | |- context [Sent (exec ?c) (inr ?o)] =>
                 exists (Sent (exec c) (inr o)), (stdout o)
             end;
             split_and!;
             [set_solver
             |handler_cbn;
              match goal with
              | E : ?b = false |- context [if ?b then _ else _] =>
                  by rewrite E
              end
             |done
             |apply trim_spec]])
    ltac:(by subst R).
Qed.

(** C9. Whenever an upsert sends a create or an update, the decrypt step has
    run before it without diagnostic and the [SecretString] of the call is
    the plaintext of that step, trimmed: the plaintext is the value between
    two runs of whitespace and the value neither starts nor ends with
    whitespace.  Plaintext and value are sequences of UTF-16 code units, and
    whitespace is every code point [String.prototype.trim] strips, those
    beyond Latin-1 included. *)
Theorem written_value_is_trimmed (props : ResourceProperties) (st : St)
    (pre post : list Interaction) (i : Interaction) (v : JSString) :
  trace client (upsertSecret props) st = pre ++ i :: post →
  written_value (command_of i) = Some v →
  ∃ j plaintext,
    j ∈ pre ∧ decoded j = Some plaintext ∧
    v = trim plaintext ∧ trimmed plaintext v.
Proof.
  intros Htrace Hv.
  destruct (sat_run client _ _ _ st (upsertSecret_written_value props))
    as [_ HP].
  exact (HP pre i post Htrace v Hv).
Qed.

(** An untag call is sent only when some existing key is missing from the
    desired tags, and it carries every key the describe call reported, not
    the missing ones alone. *)
Lemma upsertSecret_untag (props : ResourceProperties) :
  sat (λ h i,
         ∀ n keys,
           command_of i = UntagResourceCommand n keys →
           ∃ j response desired,
             j ∈ h ∧ described j = Some response ∧
             parse_or_empty (SecretTags props) = inr desired ∧
             n = SecretName props ∧
             keys = Key <$> default [] (Tags response) ∧
             tag_keys_to_remove desired response ≠ [])
      (λ _ _, True)
      [] (upsertSecret props).
Proof.
  sat_start P R.
  sat_walk P R
    ltac:(subst P; handler_cbn; intros n keys Hc;
          first
            [done
            |injection Hc as <- <-;
             match goal with
             | |- context [Sent (DescribeSecretCommand ?c) (inr ?o)] =>
                 exists (Sent (DescribeSecretCommand c) (inr o)), o
             end;
             eexists; split_and!;
             [set_solver | done | first [eassumption|reflexivity]
             |done | done
             |match goal with
              | E : bool_decide (length ?l ≠ 0) = true |- _ =>
                  apply bool_decide_eq_true in E;
                  unfold tag_keys_to_remove; intros E'%fmap_nil_inv;
                  by rewrite E' in E
              end]])
    ltac:(by subst R).
Qed.

Lemma untag_call_keys (props : ResourceProperties) (st : St)
    (pre post : list Interaction) (i : Interaction)
    (n : string) (keys : list string) :
  trace client (upsertSecret props) st = pre ++ i :: post →
  command_of i = UntagResourceCommand n keys →
  ∃ j response desired,
    j ∈ pre ∧ described j = Some response ∧
    parse_or_empty (SecretTags props) = inr desired ∧
    n = SecretName props ∧
    keys = Key <$> default [] (Tags response) ∧
    tag_keys_to_remove desired response ≠ [].
Proof.
  intros Htrace Hc.
  destruct (sat_run client _ _ _ st (upsertSecret_untag props)) as [_ HP].
  exact (HP pre i post Htrace n keys Hc).
Qed.

(** No call follows a strict call that failed, and the upsert rejects with
    the exception of its last interaction when that is a strict call. *)
Lemma upsertSecret_strict (props : ResourceProperties) :
  sat (λ h _,
         Forall (λ i, strict (command_of i) = true → error_of i = None) h)
      (λ h res,
         ∀ i err, last h = Some i → strict (command_of i) = true →
                  error_of i = Some err → res = inl err)
      [] (upsertSecret props).
Proof.
  sat_start P R.
  sat_walk P R
    ltac:(subst P; handler_cbn; by repeat (constructor; [done|]))
    ltac:(subst R; handler_cbn; intros i err [= <-]; handler_cbn; congruence).
Qed.

(** C3, amended. An exception (a "resource not found" like any other) from
    an untag, tag, put-resource-policy, remove-regions or replicate call of
    an upsert is not tolerated: the call is the last interaction of the
    upsert, and the upsert rejects with that exception.  The
    delete-resource-policy call is not among them. *)
Theorem strict_call_failure_propagates (props : ResourceProperties) (st : St)
    (pre post : list Interaction) (i : Interaction) (err : exn) :
  trace client (upsertSecret props) st = pre ++ i :: post →
  strict (command_of i) = true →
  error_of i = Some err →
  post = [] ∧ result client (upsertSecret props) st = inl err.
Proof.
  intros Htrace Hstrict Herr.
  destruct (sat_run client _ _ _ st (upsertSecret_strict props)) as [HR HP].
  assert (post = []) as ->.
  { destruct post as [|j post]; [done|].
    specialize (HP (pre ++ [i]) j post). rewrite <- app_assoc in HP.
    specialize (HP Htrace). rewrite Forall_forall in HP.
    specialize (HP i (elem_of_snoc i pre) Hstrict). congruence. }
  split; [done|]. apply (HR i err); [|done|done].
  rewrite Htrace. apply last_snoc.
Qed.

(** The policy call is fixed by the properties; an exception of the clear
    call other than "resource not found" ends the upsert. *)
Lemma upsertSecret_policy (props : ResourceProperties) :
  sat (λ h j,
         (is_policy_call (command_of j) = true →
          command_of j =
            if truthy (SecretPolicy props)
            then PutResourcePolicyCommand (SecretName props)
                   (default "" (SecretPolicy props))
            else DeleteResourcePolicyCommand (SecretName props)) ∧
         Forall (λ i, is_clear_policy (command_of i) = true →
                      ∀ err, error_of i = Some err →
                             instanceof_ResourceNotFoundException err = true)
           h)
      (λ h res,
         (∀ i err, last h = Some i → is_clear_policy (command_of i) = true →
                   error_of i = Some err →
                   instanceof_ResourceNotFoundException err = false →
                   res = inl err) ∧
         (res = inr tt →
          List.filter is_policy_call (command_of <$> h) =
            [if truthy (SecretPolicy props)
             then PutResourcePolicyCommand (SecretName props)
                    (default "" (SecretPolicy props))
             else DeleteResourcePolicyCommand (SecretName props)]))
      [] (upsertSecret props).
Proof.
  sat_start P R.
  sat_walk P R
    ltac:(subst P; handler_cbn; split;
          [intros Hcall; first [done | by rewrite_goal]
          |by repeat
                (constructor;
                 [handler_cbn;
                  first [done | intros _ ? [= <-]; by apply negb_false_iff]
                 |])])
    ltac:(subst R; handler_cbn; split;
          [intros i err [= <-]; handler_cbn; intros ? [= <-] ?;
           first [done
                 |match goal with
                  | H1 : negb ?b = false, H2 : ?b = false |- _ =>
                      rewrite H2 in H1; discriminate
                  end]
          |intros Hres; first [done | by rewrite_goal]]).
Qed.

(** C7. The resource-policy step of an upsert does not depend on the remote
    state: whatever the client answers, a policy call of the upsert is the
    put of the desired policy when one is given and the clear otherwise, and
    an upsert that resolves has made exactly that one policy call.  A
    "resource not found" answer to the clear is treated as success: the
    upsert settles to the same value, with the same calls and the same final
    state, as against the client that answers success instead.  Any other
    exception of the clear ends the upsert, which rejects with it. *)
Theorem policy_reconciliation (props : ResourceProperties) (st : St) :
  let expected :=
    if truthy (SecretPolicy props)
    then PutResourcePolicyCommand (SecretName props)
           (default "" (SecretPolicy props))
    else DeleteResourcePolicyCommand (SecretName props) in
  (∀ pre i post,
     trace client (upsertSecret props) st = pre ++ i :: post →
     is_policy_call (command_of i) = true →
     command_of i = expected) ∧
  (result client (upsertSecret props) st = inr tt →
   List.filter is_policy_call (calls client (upsertSecret props) st)
     = [expected]) ∧
  (result (forgiving client) (upsertSecret props) st
     = result client (upsertSecret props) st ∧
   calls (forgiving client) (upsertSecret props) st
     = calls client (upsertSecret props) st ∧
   final (forgiving client) (upsertSecret props) st
     = final client (upsertSecret props) st) ∧
  (∀ pre i post err,
     trace client (upsertSecret props) st = pre ++ i :: post →
     is_clear_policy (command_of i) = true →
     error_of i = Some err →
     instanceof_ResourceNotFoundException err = false →
     post = [] ∧ result client (upsertSecret props) st = inl err).
Proof.
  intros expected.
  destruct (sat_run client _ _ _ st (upsertSecret_policy props))
    as [[HR1 HR2] HP].
  split; [|split; [|split]].
  - intros pre i post Htrace Hcall. by apply (HP pre i post).
  - exact HR2.
  - unfold forgiving. run_cases client; done.
  - intros pre i post err Htrace Hclear Herr Hother.
    assert (post = []) as ->.
    { destruct post as [|j post]; [done|].
      specialize (HP (pre ++ [i]) j post). rewrite <- app_assoc in HP.
      destruct (HP Htrace) as [_ Hall]. rewrite Forall_forall in Hall.
      specialize (Hall i (elem_of_snoc i pre) Hclear err Herr). congruence. }
    split; [done|]. apply (HR1 i err); [|done..].
    rewrite Htrace. apply last_snoc.
Qed.


Lemma no_existing_regions (desired : list IReplicaRegionType)
    (response : DescribeSecretResponse) :
  bool_decide (optional_length (ReplicationStatus response) ≠ 0) = false →
  regions_to_remove desired response = [].
Proof.
  unfold regions_to_remove. intros Hlen%bool_decide_eq_false.
  destruct (ReplicationStatus response) as [[|??]|]; simpl in *;
    [done|by destruct Hlen|done].
Qed.

(** A remove-regions call carries the regions to remove, a replicate call
    the regions to add, no call follows a replicate call, and an upsert that
    resolves has made the region calls its properties and the describe
    response ask for. *)
Lemma upsertSecret_regions (props : ResourceProperties) :
  sat (λ h i,
         (∀ n removed,
            command_of i = RemoveRegionsFromReplicationCommand n removed →
            ∃ j response desired,
              j ∈ h ∧ described j = Some response ∧
              parse_or_empty (SecretReplicaRegions props) = inr desired ∧
              n = SecretName props ∧
              removed = regions_to_remove desired response ∧
              removed ≠ []) ∧
         (∀ n added,
            command_of i = ReplicateSecretToRegionsCommand n added →
            ∃ desired,
              parse_or_empty (SecretReplicaRegions props) = inr desired ∧
              n = SecretName props ∧ added = regions_to_add desired) ∧
         Forall (λ j, ∀ n added,
                   command_of j ≠ ReplicateSecretToRegionsCommand n added) h)
      (λ h res,
         res = inr tt →
         ∃ desired,
           parse_or_empty (SecretReplicaRegions props) = inr desired ∧
           List.filter is_region_call (command_of <$> h) =
             match head (omap described h) with
             | Some response =>
                 if bool_decide
                      (length (regions_to_remove desired response) ≠ 0)
                 then [RemoveRegionsFromReplicationCommand (SecretName props)
                         (regions_to_remove desired response)]
                 else []
             | None => []
             end
             ++ (if bool_decide (length desired ≠ 0)
                 then [ReplicateSecretToRegionsCommand (SecretName props)
                         (regions_to_add desired)]
                 else []))
      [] (upsertSecret props).
Proof.
  sat_start P R.
  sat_walk P R
    ltac:(subst P; handler_cbn; split_and!;
          [intros n removed Hc;
           first
             [done
             |injection Hc as <- <-;
              match goal with
              | |- context [Sent (DescribeSecretCommand ?c) (inr ?o)] =>
                  exists (Sent (DescribeSecretCommand c) (inr o)), o
              end;
              eexists; split_and!;
              [set_solver | done | first [eassumption|reflexivity]
              |done | done
              |match goal with
               | E : bool_decide (length ?l ≠ 0) = true |- ?l ≠ [] =>
                   apply bool_decide_eq_true in E; intros E';
                   by rewrite E' in E
               end]]
          |intros n added Hc;
           first [done | injection Hc as <- <-; eexists; by split_and!]
          |by repeat (constructor; [done|])])
    ltac:(subst R; handler_cbn; intros Hres;
          first
            [done
            |eexists; split; [first [eassumption|reflexivity]|];
             rewrite ?no_existing_regions by assumption;
             handler_cbn; unfold regions_to_remove, regions_to_add;
             rewrite_goal; reflexivity]).
Qed.

(** C6. In every upsert, a remove-regions call carries exactly the existing
    regions, as the describe call reported them, whose name is not the name
    of a desired region (key references are not compared), and that list is
    not empty; a replicate call carries every desired region, present
    remotely or not, and is the last interaction of the upsert, so that a
    removal comes before it; an upsert that resolves has made the removal
    call if and only if there is a region to remove, and then the replicate
    call if and only if a region is desired. *)
Theorem region_reconciliation (props : ResourceProperties) (st : St) :
  (∀ pre i post n removed,
     trace client (upsertSecret props) st = pre ++ i :: post →
     command_of i = RemoveRegionsFromReplicationCommand n removed →
     ∃ j response desired,
       j ∈ pre ∧ described j = Some response ∧
       parse_or_empty (SecretReplicaRegions props) = inr desired ∧
       n = SecretName props ∧
       removed = regions_to_remove desired response ∧
       removed ≠ []) ∧
  (∀ pre i post n added,
     trace client (upsertSecret props) st = pre ++ i :: post →
     command_of i = ReplicateSecretToRegionsCommand n added →
     ∃ desired,
       parse_or_empty (SecretReplicaRegions props) = inr desired ∧
       n = SecretName props ∧
       added = regions_to_add desired ∧
       post = []) ∧
  (result client (upsertSecret props) st = inr tt →
   ∃ desired,
     parse_or_empty (SecretReplicaRegions props) = inr desired ∧
     List.filter is_region_call (calls client (upsertSecret props) st) =
       match head (omap described (trace client (upsertSecret props) st)) with
       | Some response =>
           if bool_decide (length (regions_to_remove desired response) ≠ 0)
           then [RemoveRegionsFromReplicationCommand (SecretName props)
                   (regions_to_remove desired response)]
           else []
       | None => []
       end
       ++ (if bool_decide (length desired ≠ 0)
           then [ReplicateSecretToRegionsCommand (SecretName props)
                   (regions_to_add desired)]
           else [])).
Proof.
  destruct (sat_run client _ _ _ st (upsertSecret_regions props)) as [HR HP].
  split; [|split].
  - intros pre i post n removed Htrace Hc.
    destruct (HP pre i post Htrace) as (Hremove & _ & _). eauto.
  - intros pre i post n added Htrace Hc.
    destruct (HP pre i post Htrace) as (_ & Hadd & _).
    destruct (Hadd n added Hc) as (desired & ? & ? & ?).
    exists desired. split_and!; [done..|].
    destruct post as [|j post]; [done|].
    specialize (HP (pre ++ [i]) j post). rewrite <- app_assoc in HP.
    destruct (HP Htrace) as (_ & _ & Hnone). rewrite Forall_forall in Hnone.
    by destruct (Hnone i (elem_of_snoc i pre) n added).
  - exact HR.
Qed.
End Upsert.

(** ** Tags on the reference store *)

Lemma includes_spec (l : list string) (x : string) :
  includes l x = true ↔ x ∈ l.
Proof.
  unfold includes. rewrite existsb_exists. split.
  - intros (y & Hin & Heq). apply String.eqb_eq in Heq as ->.
    by apply list_elem_of_In.
  - intros Hin. exists x. split; [by apply list_elem_of_In|].
    apply String.eqb_refl.
Qed.

(** Tagging inserts the new tags over the old ones. *)
Lemma tag_union (new : list (string * string)) (t : gmap string string) :
  tag ((λ kv, {| Key := kv.1; Value := kv.2 |}) <$> new) t
    = list_to_map new ∪ t.
Proof.
  unfold tag. induction new as [|[k v] new IH]; csimpl.
  - by rewrite (left_id_L ∅ (∪)).
  - by rewrite IH, insert_union_l.
Qed.

(** When no existing key is missing from the new tags, tagging leaves
    exactly the new tags. *)
Lemma tag_covers (new : list (string * string)) (s : Secret) :
  List.filter (λ t, negb (includes new.*1 (Key t)))
    (default [] (Tags (describe s))) = [] →
  tag ((λ kv, {| Key := kv.1; Value := kv.2 |}) <$> new) (secret_tags s)
    = list_to_map new.
Proof.
  intros Hnone. rewrite tag_union. apply map_eq; intros k.
  rewrite lookup_union.
  destruct (list_to_map new !! k) as [v|] eqn:Hnew.
  { by destruct (secret_tags s !! k). }
  destruct (secret_tags s !! k) as [v|] eqn:Hold; [|done].
  exfalso. apply not_elem_of_list_to_map in Hnew. apply Hnew.
  apply includes_spec.
  assert (Hin : In {| Key := k; Value := v |} (default [] (Tags (describe s)))).
  { simpl. apply list_elem_of_In, list_elem_of_fmap. exists (k, v).
    split; [done|]. by apply elem_of_map_to_list. }
  destruct (includes new.*1 k) eqn:Hk; [done|].
  assert (Hf : In {| Key := k; Value := v |}
                 (List.filter (λ t, negb (includes new.*1 (Key t)))
                    (default [] (Tags (describe s))))).
  { apply filter_In. split; [done|]. simpl. by rewrite Hk. }
  rewrite Hnone in Hf. destruct Hf.
Qed.

Lemma no_existing_tags (s : Secret) :
  optional_length (Tags (describe s)) = 0 → secret_tags s = ∅.
Proof.
  simpl. rewrite length_fmap. intros Hlen.
  by apply map_to_list_empty_iff, nil_length_inv.
Qed.

Ltac store_cbn :=
  cbn -[trim sops_command parse_or_empty includes truthy optional_length
        default on_secret describe tag untag tag_limit].

(** One step of a run on the reference store: compute the answer, look the
    secret up, split on the next condition. *)
Ltac store_step Hs :=
  store_cbn; unfold on_secret;
  rewrite ?Hs, ?lookup_insert_eq, ?insert_insert_eq;
  try match goal with
      | |- context [match secret_policy ?s with _ => _ end] =>
          destruct (secret_policy s) eqn:?
      | |- context [if ?b then _ else _] => destruct b eqn:?
      end.

Section StoreTags.
Context `{!JSON (list (string * string)), !JSON (list IReplicaRegionType)}.
Variable env : Environment.

(** The policy and region steps succeed on an existing secret and leave
    its tags alone. *)
Lemma policy_and_regions_keep_tags (props : ResourceProperties)
    (secretExists : bool)
    (existing : option (list ReplicationStatusType))
    (desired : list IReplicaRegionType)
    (store : gmap string Secret) (s : Secret) :
  store !! SecretName props = Some s →
  parse_or_empty (SecretReplicaRegions props) = inr desired →
  let tail := upsertSecret_policy_and_regions props secretExists existing in
  result (store_client env) tail store = inr tt ∧
  ∃ s', final (store_client env) tail store !! SecretName props = Some s' ∧
        secret_tags s' = secret_tags s.
Proof.
  intros Hs Hparse. unfold upsertSecret_policy_and_regions.
  unfold_handler. rewrite Hparse.
  repeat store_step Hs.
  all: split; [done|].
  all: eexists;
    (split; [first [reflexivity | apply lookup_insert_eq | eassumption]|done]).
Qed.

(** After one upsert on the reference store the tags of the secret are the
    desired tags, whatever they were before. *)
Lemma upsertSecret_sets_tags (props : ResourceProperties)
    (store : gmap string Secret)
    (desired : list (string * string)) (regions : list IReplicaRegionType) :
  delivers env props →
  parse_or_empty (SecretTags props) = inr desired →
  parse_or_empty (SecretReplicaRegions props) = inr regions →
  NoDup desired.*1 →
  length desired ≤ tag_limit →
  result (store_client env) (upsertSecret props) store = inr tt ∧
  ∃ s, final (store_client env) (upsertSecret props) store !! SecretName props
         = Some s ∧
       secret_tags s = list_to_map desired.
Proof.
  intros (body & out & Hblob & Hdecrypt & Hquiet) Htags Hregions Hnodup Hlen.
  assert (Hsize : size (list_to_map desired : gmap string string) ≤ tag_limit).
  { by rewrite map_size_list_to_map. }
  set (good := λ r : (exn + unit) * gmap string Secret * list Interaction,
         r.1.1 = inr tt ∧
         ∃ s, r.1.2 !! SecretName props = Some s ∧
              secret_tags s = list_to_map desired).
  change (good (run (store_client env) (upsertSecret props) store)).
  assert (Hstep : ∀ x r,
            good r → good (let '(res, st'', tr) := r in (res, st'', x :: tr))).
  { by intros x [[??]?]. }
  assert (Htail : ∀ secretExists existing store' s,
            store' !! SecretName props = Some s →
            secret_tags s = list_to_map desired →
            good (run (store_client env)
                    (upsertSecret_policy_and_regions props secretExists
                       existing) store')).
  { intros secretExists existing store' s Hs Hs'.
    destruct (policy_and_regions_keep_tags props secretExists existing
                regions store' s Hs Hregions) as (Hres & s' & Hfinal & Hsame).
    split; [done|]. exists s'. split; [done|]. congruence. }
  assert (Hrest : ∀ secretExists existing store1 s1,
            store1 !! SecretName props = Some s1 →
            tag ((λ kv, {| Key := kv.1; Value := kv.2 |}) <$> desired)
              (secret_tags s1) = list_to_map desired →
            good (run (store_client env)
                    ((if bool_decide (length desired ≠ 0)
                      then send (TagResourceCommand (SecretName props)
                                   ((λ kv, {| Key := kv.1; Value := kv.2 |})
                                      <$> desired))
                      else mret tt);;
                     upsertSecret_policy_and_regions props secretExists
                       existing) store1)).
  { intros secretExists existing store1 s1 Hs1 Htag.
    case_bool_decide as Hdesired.
    - unfold_handler. store_cbn. unfold on_secret.
      rewrite Hs1. store_cbn. rewrite Htag.
      rewrite bool_decide_eq_true_2 by done. store_cbn. apply Hstep.
      eapply Htail; [apply lookup_insert_eq|done].
    - assert (desired = []) as Hnil.
      { apply nil_length_inv. lia. }
      unfold_handler. store_cbn. eapply Htail; [exact Hs1|].
      rewrite <- Htag, Hnil. done. }
  unfold_handler. store_cbn. rewrite Hblob. store_cbn. apply Hstep.
  rewrite Hdecrypt. store_cbn. apply Hstep. rewrite Hquiet.
  change (truthy (Some "")) with false. store_cbn.
  destruct (store !! SecretName props) as [s0|] eqn:Hs0.
  - store_cbn. apply Hstep. unfold on_secret at 1. rewrite Hs0. store_cbn.
    apply Hstep. rewrite Htags. store_cbn.
    destruct (bool_decide (optional_length (Tags (describe s0)) ≠ 0))
      eqn:Hexisting;
      [destruct (bool_decide (length (List.filter _ _) ≠ 0)) eqn:Hremove|].
    + store_cbn. unfold on_secret at 1.
      rewrite lookup_insert_eq, insert_insert_eq. store_cbn. apply Hstep.
      eapply (Hrest true (ReplicationStatus (describe s0)));
        [apply lookup_insert_eq|]. store_cbn.
      rewrite describe_keys. unfold untag. rewrite foldr_delete_all.
      by rewrite tag_union, (right_id_L ∅ (∪)).
    + store_cbn.
      eapply (Hrest true (ReplicationStatus (describe s0)));
        [apply lookup_insert_eq|]. store_cbn.
      apply tag_covers, nil_length_inv.
      apply bool_decide_eq_false in Hremove. lia.
    + store_cbn.
      eapply (Hrest true (ReplicationStatus (describe s0)));
        [apply lookup_insert_eq|]. store_cbn.
      apply bool_decide_eq_false in Hexisting.
      rewrite no_existing_tags, tag_union, (right_id_L ∅ (∪)); [done|lia].
  - store_cbn. apply Hstep. rewrite Hs0. store_cbn. apply Hstep.
    rewrite Htags. store_cbn.
    change (bool_decide (optional_length (@None (list Tag)) ≠ 0)) with false.
    store_cbn. eapply (Hrest false None); [apply lookup_insert_eq|].
    store_cbn. by rewrite tag_union, (right_id_L ∅ (∪)).
Qed.

(** C2. On the reference store, for desired tag sets [A] and [B] with
    unique keys and at most 50 entries each, an upsert with the tags [A]
    followed by an upsert of the same secret with the tags [B] resolves
    both times and leaves the secret with exactly the tags [B]: a key has a
    value remotely if and only if [B] pairs it with that value. *)
Theorem tags_converge (store : gmap string Secret)
    (propsA propsB : ResourceProperties)
    (A B : list (string * string))
    (regionsA regionsB : list IReplicaRegionType) :
  SecretName propsA = SecretName propsB →
  delivers env propsA →
  delivers env propsB →
  parse_or_empty (SecretTags propsA) = inr A →
  parse_or_empty (SecretTags propsB) = inr B →
  parse_or_empty (SecretReplicaRegions propsA) = inr regionsA →
  parse_or_empty (SecretReplicaRegions propsB) = inr regionsB →
  NoDup A.*1 → NoDup B.*1 →
  length A ≤ 50 → length B ≤ 50 →
  let first := run (store_client env) (upsertSecret propsA) store in
  let second := run (store_client env) (upsertSecret propsB) first.1.2 in
  first.1.1 = inr tt ∧
  second.1.1 = inr tt ∧
  ∃ s, second.1.2 !! SecretName propsA = Some s ∧
       secret_tags s = list_to_map B ∧
       ∀ k v, secret_tags s !! k = Some v ↔ (k, v) ∈ B.
Proof.
  intros Hname HdeliversA HdeliversB HA HB HregionsA HregionsB
    HnodupA HnodupB HlenA HlenB first second.
  destruct (upsertSecret_sets_tags propsA store A regionsA)
    as [HfirstA _]; [done..|].
  destruct (upsertSecret_sets_tags propsB first.1.2 B regionsB)
    as (Hsecond & s & Hs & Htags); [done..|].
  split; [done|]. split; [done|].
  exists s. rewrite Hname. split; [done|]. split; [done|].
  intros k v. rewrite Htags. symmetry. by apply elem_of_list_to_map.
Qed.
End StoreTags.

(** ** The handler on the sample inputs *)

(** An event of an unknown type is rejected with [Error "Failed"]. *)
Lemma onEvent_dispatch_witness :
  run (store_client sample_env)
    (@onEvent sample_tags_JSON sample_regions_JSON (sample_event "Replace"))
    sample_store
  = (inl (Error "Failed"), sample_store, []).
Proof.
  apply (@onEvent_dispatch sample_tags_JSON sample_regions_JSON _
           (store_client sample_env) (sample_event "Replace") sample_store).
  apply (bool_decide_unpack _). vm_compute. exact I.
Defined.

(** C1, the defect.  The remote secret has the tags [env: staging] and
    [team: x] and the desired tags are [env: prod]: the keys present remotely
    and absent from the desired tags are [team] alone, and the untag call of
    the upsert carries [env] and [team]. *)
Theorem untag_call_carries_every_existing_key :
  tag_keys_to_remove [("env", "prod")] (describe sample_secret) = ["team"] ∧
  List.filter is_untag
    (calls (store_client sample_env)
       (@upsertSecret sample_tags_JSON sample_regions_JSON sample_props)
       sample_store)
  = [UntagResourceCommand sample_name ["env"; "team"]].
Proof. split; vm_compute; reflexivity. Qed.

(** The tags [env: staging], [team: x] and then [env: prod] on an empty
    store leave [env: prod]. *)
Lemma tags_converge_witness :
  ∃ s,
    (run (store_client sample_env)
       (@upsertSecret sample_tags_JSON sample_regions_JSON sample_props)
       (run (store_client sample_env)
          (@upsertSecret sample_tags_JSON sample_regions_JSON staging_props)
          ∅).1.2).1.2 !! sample_name = Some s ∧
    secret_tags s = list_to_map [("env", "prod")].
Proof.
  destruct (@tags_converge sample_tags_JSON sample_regions_JSON sample_env ∅
              staging_props sample_props
              [("env", "staging"); ("team", "x")] [("env", "prod")] [] [])
    as (_ & _ & s & Hs & Htags & _).
  - reflexivity.
  - eexists _, _. split_and!; reflexivity.
  - eexists _, _. split_and!; reflexivity.
  - reflexivity.
  - reflexivity.
  - reflexivity.
  - reflexivity.
  - apply (bool_decide_unpack _). vm_compute. exact I.
  - apply (bool_decide_unpack _). vm_compute. exact I.
  - simpl. lia.
  - simpl. lia.
  - exists s. split; [exact Hs | exact Htags].
Defined.

(** C3, the counterexample.  The sample secret exists and has no resource
    policy, and none is desired: the delete-resource-policy call of the upsert
    is answered "resource not found", the upsert goes on with two more calls
    and resolves. *)
Lemma clear_policy_not_found_is_tolerated :
  let tr :=
    trace (store_client sample_env)
      (@upsertSecret sample_tags_JSON sample_regions_JSON replicated_props)
      sample_store in
  described <$> tr !! 2 = Some (Some (describe sample_secret)) ∧
  command_of <$> tr !! 6 = Some (DeleteResourcePolicyCommand sample_name) ∧
  error_of <$> tr !! 6
    = Some (Some (ResourceNotFoundException "no policy attached")) ∧
  command_of <$> drop 7 tr
    = [RemoveRegionsFromReplicationCommand sample_name
         ["us-west-2"; "eu-west-1"];
       ReplicateSecretToRegionsCommand sample_name
         [{| Region' := "us-east-1"; KmsKeyId' := None |}]] ∧
  result (store_client sample_env)
    (@upsertSecret sample_tags_JSON sample_regions_JSON replicated_props)
    sample_store = inr tt.
Proof. vm_compute. by split_and!. Qed.

(** A store whose tag calls answer "resource not found": the upsert rejects
    with that answer. *)
Lemma strict_call_failure_propagates_witness :
  result (failing_on is_tag (not_found sample_name) (store_client sample_env))
    (@upsertSecret sample_tags_JSON sample_regions_JSON sample_props)
    sample_store
  = inl (not_found sample_name).
Proof.
  set (client :=
         failing_on is_tag (not_found sample_name) (store_client sample_env)).
  set (p := @upsertSecret sample_tags_JSON sample_regions_JSON sample_props).
  apply (@strict_call_failure_propagates sample_tags_JSON sample_regions_JSON
           _ client sample_props sample_store
           (take 5 (trace client p sample_store)) []
           (Sent (TagResourceCommand sample_name
                    [{| Key := "env"; Value := "prod" |}])
              (inl (not_found sample_name)))
           (not_found sample_name)).
  - vm_compute. reflexivity.
  - reflexivity.
  - reflexivity.
Defined.

(** The replicated sample: one removal of the two stale regions, then the
    replication to the desired one. *)
Lemma region_reconciliation_witness :
  ∃ desired,
    @parse_or_empty _ sample_regions_JSON (SecretReplicaRegions replicated_props)
      = inr desired ∧
    List.filter is_region_call
      (calls (store_client sample_env)
         (@upsertSecret sample_tags_JSON sample_regions_JSON replicated_props)
         sample_store)
    = [RemoveRegionsFromReplicationCommand sample_name
         ["us-west-2"; "eu-west-1"];
       ReplicateSecretToRegionsCommand sample_name
         [{| Region' := "us-east-1"; KmsKeyId' := None |}]].
Proof.
  destruct (@region_reconciliation sample_tags_JSON sample_regions_JSON _
              (store_client sample_env) replicated_props sample_store)
    as (_ & _ & Hresolved).
  destruct Hresolved as (desired & Hparse & Hcalls); [reflexivity|].
  exists desired. split; [exact Hparse|].
  rewrite Hcalls. injection Hparse as <-. reflexivity.
Defined.

(** No policy is desired for the sample: the one policy call is the
    clear. *)
Lemma policy_reconciliation_witness :
  List.filter is_policy_call
    (calls (store_client sample_env)
       (@upsertSecret sample_tags_JSON sample_regions_JSON sample_props)
       sample_store)
  = [DeleteResourcePolicyCommand sample_name].
Proof.
  destruct (@policy_reconciliation sample_tags_JSON sample_regions_JSON _
              (store_client sample_env) sample_props sample_store)
    as (_ & Hresolved & _).
  apply Hresolved. reflexivity.
Defined.

(** With a decrypt step that prints a diagnostic, the upsert rejects after
    the decrypt step. *)
Lemma decode_failure_aborts_witness :
  ∃ err,
    result (store_client failing_env)
      (@upsertSecret sample_tags_JSON sample_regions_JSON sample_props)
      sample_store = inl err.
Proof.
  set (p := @upsertSecret sample_tags_JSON sample_regions_JSON sample_props).
  destruct (@decode_failure_aborts sample_tags_JSON sample_regions_JSON _
              (store_client failing_env) sample_props sample_store)
    as [_ Habort].
  destruct (Habort (take 1 (trace (store_client failing_env) p sample_store))
              (Sent (exec (sops_command "ENC[AES256_GCM,data:...]" json))
                 (inr {| stdout := [];
                         stderr := "Failed to get the data key" |}))
              [])
    as (_ & Hrejects & _).
  - vm_compute. reflexivity.
  - reflexivity.
  - exact Hrejects.
Defined.

(** The plaintext of the wide sample starts with a byte order mark and a
    line feed and ends with a line separator and a line feed; the update call
    carries what is between them, two ideographs around an ideographic
    space. *)
Lemma written_value_is_trimmed_witness :
  ∃ j plaintext,
    decoded j = Some plaintext ∧
    [0x4E2D; 0x3000; 0x6587]%N = trim plaintext ∧
    trimmed plaintext [0x4E2D; 0x3000; 0x6587]%N.
Proof.
  set (client := store_client wide_env).
  set (p := @upsertSecret sample_tags_JSON sample_regions_JSON sample_props).
  destruct (@written_value_is_trimmed sample_tags_JSON sample_regions_JSON _
              client sample_props sample_store
              (take 3 (trace client p sample_store))
              (drop 4 (trace client p sample_store))
              (Sent (UpdateSecretCommand sample_name None
                       [0x4E2D; 0x3000; 0x6587]%N None) (inr tt))
              [0x4E2D; 0x3000; 0x6587]%N)
    as (j & plaintext & _ & Hj & Hv & Htrim).
  - vm_compute. reflexivity.
  - reflexivity.
  - exists j, plaintext. split_and!; [exact Hj | exact Hv | exact Htrim].
Defined.

(** ** More on the upsert against any client *)

(** Close the obligation [Forall Q h] on a displayed history with [tac]. *)
Ltac forall_history tac := repeat (constructor; [tac|]); try constructor.

Lemma instanceof_negb_false (err : exn) :
  negb (instanceof_ResourceNotFoundException err) = false →
  instanceof_ResourceNotFoundException err = true.
Proof. apply negb_false_iff. Qed.

Lemma instanceof_negb_true (err : exn) :
  negb (instanceof_ResourceNotFoundException err) = true →
  instanceof_ResourceNotFoundException err = false.
Proof. apply negb_true_iff. Qed.

(** Turn the tests on [negb (instanceof ...)] that the walk recorded into
    tests on [instanceof ...]. *)
Ltac positive_tests :=
  repeat match goal with
         | H : negb (instanceof_ResourceNotFoundException _) = false |- _ =>
             apply instanceof_negb_false in H
         | H : negb (instanceof_ResourceNotFoundException _) = true |- _ =>
             apply instanceof_negb_true in H
         end.

Section UpsertMore.
Context `{!JSON (list (string * string)), !JSON (list IReplicaRegionType)}.
Context {St : Type} (client : ∀ c : Command, St → (exn + Output c) * St).

(** Every command comes at a later step than the commands before it, and
    no command deletes the secret. *)
Lemma upsertSecret_steps (props : ResourceProperties) :
  sat (λ h j,
         step (command_of j) < 9 ∧
         Forall (λ i, step (command_of i) < step (command_of j)) h)
      (λ _ _, True)
      [] (upsertSecret props).
Proof.
  sat_start P R.
  sat_walk P R
    ltac:(subst P; handler_cbn; split;
          [lia | forall_history ltac:(handler_cbn; lia)])
    ltac:(by subst R).
Qed.

(** X1. The commands of an upsert follow the order of its steps: fetch,
    decrypt, describe, write, untag, tag, policy, remove-regions,
    replicate.  A command is never sent twice, never after a command of a
    later step, and an upsert never sends a delete-secret command. *)
Theorem upsertSecret_call_order (props : ResourceProperties) (st : St)
    (pre post : list Interaction) (i : Interaction) :
  trace client (upsertSecret props) st = pre ++ i :: post →
  step (command_of i) < 9 ∧
  (∀ j, j ∈ pre → step (command_of j) < step (command_of i)) ∧
  (∀ j, j ∈ post → step (command_of i) < step (command_of j)).
Proof.
  intros Htrace.
  destruct (sat_run client _ _ _ st (upsertSecret_steps props)) as [_ HP].
  destruct (HP pre i post Htrace) as [Hstep Hpre].
  split; [done|]. split.
  - by apply Forall_forall.
  - intros j Hj. apply list_elem_of_split in Hj as (post1 & post2 & ->).
    destruct (HP (pre ++ i :: post1) j post2) as [_ Hbefore].
    { by rewrite <- app_assoc. }
    rewrite Forall_forall in Hbefore. apply Hbefore, elem_of_middle.
Qed.

(** What each command of an upsert names. *)
Lemma upsertSecret_names (props : ResourceProperties) :
  sat (λ h j,
         (∀ n, secret_of (command_of j) = Some n → n = SecretName props) ∧
         (∀ b k, command_of j = GetObjectCommand b k →
                 b = S3BucketName props ∧ k = S3ObjectKey props) ∧
         (∀ line, command_of j = exec line →
                  ∃ i body,
                    last h = Some i ∧ fetched i = Some body ∧
                    line = sops_command body (SecretType' props)))
      (λ _ _, True)
      [] (upsertSecret props).
Proof.
  sat_start P R.
  sat_walk P R
    ltac:(subst P; handler_cbn; split_and!;
          [by intros n [= <-]
          |intros b k Hc; first [done | by injection Hc as <- <-]
          |intros line Hc;
           first
             [done
             |injection Hc as <-; eexists _, _;
              split_and!; [done| |done]; handler_cbn; by rewrite_goal]])
    ltac:(by subst R).
Qed.

(** X2. An upsert touches nothing but what its properties name: every
    Secrets Manager command carries [SecretName], the one S3 read carries
    [S3BucketName] and [S3ObjectKey], and the command line handed to the
    shell is the sops line for the body that read returned, with
    [SecretType] as input and output type. *)
Theorem upsertSecret_names_only_its_secret (props : ResourceProperties)
    (st : St) (pre post : list Interaction) (i : Interaction) :
  trace client (upsertSecret props) st = pre ++ i :: post →
  (∀ n, secret_of (command_of i) = Some n → n = SecretName props) ∧
  (∀ b k, command_of i = GetObjectCommand b k →
          b = S3BucketName props ∧ k = S3ObjectKey props) ∧
  (∀ line, command_of i = exec line →
           ∃ j body,
             last pre = Some j ∧ fetched j = Some body ∧
             line = sops_command body (SecretType' props)).
Proof.
  intros Htrace.
  destruct (sat_run client _ _ _ st (upsertSecret_names props)) as [_ HP].
  exact (HP pre i post Htrace).
Qed.

(** No call follows an exception that is not caught; the upsert rejects
    with the uncaught exception of its last interaction, and with nothing
    else than such an exception, a stream error, the sops diagnostic or a
    parse error. *)
Lemma upsertSecret_failures (props : ResourceProperties) :
  sat (λ h _, Forall (λ i, fatal i = None) h)
      (λ h res,
         (∀ i err, last h = Some i → fatal i = Some err → res = inl err) ∧
         (∀ err, res = inl err →
                 (∃ i, last h = Some i ∧
                       (fatal i = Some err ∨ stream_error i = Some err ∨
                        diagnostic i = Some err)) ∨
                 parse_or_empty (A := string * string) (SecretTags props)
                   = inl err ∨
                 parse_or_empty (A := IReplicaRegionType)
                   (SecretReplicaRegions props) = inl err))
      [] (upsertSecret props).
Proof.
  sat_start P R.
  sat_walk P R
    ltac:(subst P; positive_tests; handler_cbn;
          forall_history ltac:(unfold fatal; handler_cbn; by rewrite_goal))
    ltac:(subst R; positive_tests; handler_cbn; split;
          [intros i err [= <-]; unfold fatal; handler_cbn; rewrite_goal;
           handler_cbn; congruence
          |intros err Hres;
           first
             [done
             |injection Hres as <-;
              first
                [left; eexists; split; [done|]; unfold fatal; handler_cbn;
                 rewrite_goal; handler_cbn;
                 first [left; done | right; left; done | right; right; done]
                |right; left; done
                |right; right; done]]]).
Qed.

(** X3. Apart from the two answers the code catches ("resource not found"
    to the describe and to the delete-resource-policy call), the first
    exception of any call ends the upsert: the call is its last
    interaction and the upsert rejects with that exception, unchanged.  This
    holds for the S3 read, the decrypt step, the describe and the create or
    update as it does for the tag, policy and region calls. *)
Theorem upsertSecret_first_failure (props : ResourceProperties) (st : St)
    (pre post : list Interaction) (i : Interaction) (err : exn) :
  trace client (upsertSecret props) st = pre ++ i :: post →
  fatal i = Some err →
  post = [] ∧ result client (upsertSecret props) st = inl err.
Proof.
  intros Htrace Hfatal.
  destruct (sat_run client _ _ _ st (upsertSecret_failures props))
    as [[HR _] HP].
  assert (post = []) as ->.
  { destruct post as [|j post]; [done|].
    specialize (HP (pre ++ [i]) j post). rewrite <- app_assoc in HP.
    specialize (HP Htrace). rewrite Forall_forall in HP.
    specialize (HP i (elem_of_snoc i pre)). simpl in HP. congruence. }
  split; [done|]. apply (HR i err); [|done].
  rewrite Htrace. apply last_snoc.
Qed.

(** X4. When the tags text and the replica regions text parse, each to a
    list of the shape the code annotates, an upsert rejects for one of three
    reasons only: the uncaught exception of its last call, the ['error'] of
    the S3 body stream, or the diagnostic of the decrypt step (wrapped as
    "sops command failed with: ...").  Nothing is said of a text that
    [JSON.parse] reads as a value of another shape. *)
Theorem upsertSecret_rejection_causes (props : ResourceProperties) (st : St)
    (tags : list (string * string)) (regions : list IReplicaRegionType)
    (err : exn) :
  parse_or_empty (SecretTags props) = inr tags →
  parse_or_empty (SecretReplicaRegions props) = inr regions →
  result client (upsertSecret props) st = inl err →
  ∃ i, last (trace client (upsertSecret props) st) = Some i ∧
       (fatal i = Some err ∨ stream_error i = Some err ∨
        diagnostic i = Some err).
Proof.
  intros Htags Hregions Hres.
  destruct (sat_run client _ _ _ st (upsertSecret_failures props))
    as [[_ HR] _].
  destruct (HR err Hres) as [Hlast|[Hbad|Hbad]]; [done|congruence..].
Qed.

(** The write follows the describe and is chosen by its answer. *)
Lemma upsertSecret_write (props : ResourceProperties) :
  sat (λ h j,
         (∀ n d v k,
            command_of j = UpdateSecretCommand n d v k →
            n = SecretName props ∧ d = SecretDescription props ∧
            k = SecretKmsKeyArn props ∧
            ∃ i response, last h = Some i ∧ described i = Some response) ∧
         (∀ n d v k,
            command_of j = CreateSecretCommand n d v k →
            n = SecretName props ∧ d = SecretDescription props ∧
            k = SecretKmsKeyArn props ∧
            ∃ i err,
              last h = Some i ∧ is_describe (command_of i) = true ∧
              error_of i = Some err ∧
              instanceof_ResourceNotFoundException err = true))
      (λ h res,
         res = inr tt →
         length (List.filter is_write (command_of <$> h)) = 1)
      [] (upsertSecret props).
Proof.
  sat_start P R.
  sat_walk P R
    ltac:(subst P; handler_cbn; split;
          intros ? ? ? ? Hc;
          first
            [done
            |injection Hc as <- <- <- <-;
             split_and!; [done..|]; eexists _, _; by split_and!])
    ltac:(subst R; handler_cbn; intros Hres; first [done | reflexivity]).
Qed.

(** X5. The secret value is written by an update when the describe
    resolved and by a create when the describe answered "resource not
    found", as the next call after the describe, with the description and
    the KMS key of the properties; an upsert that resolves has written
    exactly once. *)
Theorem upsertSecret_writes_once (props : ResourceProperties) (st : St) :
  (∀ pre i post n d v k,
     trace client (upsertSecret props) st = pre ++ i :: post →
     command_of i = UpdateSecretCommand n d v k →
     n = SecretName props ∧ d = SecretDescription props ∧
     k = SecretKmsKeyArn props ∧
     ∃ j response, last pre = Some j ∧ described j = Some response) ∧
  (∀ pre i post n d v k,
     trace client (upsertSecret props) st = pre ++ i :: post →
     command_of i = CreateSecretCommand n d v k →
     n = SecretName props ∧ d = SecretDescription props ∧
     k = SecretKmsKeyArn props ∧
     ∃ j err,
       last pre = Some j ∧ is_describe (command_of j) = true ∧
       error_of j = Some err ∧
       instanceof_ResourceNotFoundException err = true) ∧
  (result client (upsertSecret props) st = inr tt →
   length (List.filter is_write (calls client (upsertSecret props) st)) = 1).
Proof.
  destruct (sat_run client _ _ _ st (upsertSecret_write props)) as [HR HP].
  split; [|split].
  - intros pre i post n d v k Htrace Hc.
    destruct (HP pre i post Htrace) as [Hupdate _]. eauto.
  - intros pre i post n d v k Htrace Hc.
    destruct (HP pre i post Htrace) as [_ Hcreate]. eauto.
  - exact HR.
Qed.

Lemma upsertSecret_malformed_tags (props : ResourceProperties) (err : exn) :
  sat (λ h j,
         parse_or_empty (A := string * string) (SecretTags props) = inl err →
         step (command_of j) ≤ 3)
      (λ h res,
         parse_or_empty (A := string * string) (SecretTags props) = inl err →
         (∃ e, res = inl e) ∧
         ∀ i, last h = Some i → is_write (command_of i) = true →
              error_of i = None → res = inl err)
      [] (upsertSecret props).
Proof.
  sat_start P R.
  sat_walk P R
    ltac:(subst P; handler_cbn; intros Hbad; first [lia | done])
    ltac:(subst R; handler_cbn; intros Hbad;
          first
            [done
            |split;
             [by eauto
             |intros i [= <-]; handler_cbn; intros; congruence]]).
Qed.

(** X6. When the tags text is malformed, the upsert never resolves and
    sends no tag, policy or region call, yet it has sent the write before
    parsing: if the create or update resolved, the value is stored and the
    upsert rejects with the exception of [JSON.parse]. *)
Theorem upsertSecret_malformed_tags_after_write (props : ResourceProperties)
    (st : St) (err : exn) :
  parse_or_empty (A := string * string) (SecretTags props) = inl err →
  (∀ i, i ∈ trace client (upsertSecret props) st →
        step (command_of i) ≤ 3) ∧
  (∃ e, result client (upsertSecret props) st = inl e) ∧
  (∀ i, last (trace client (upsertSecret props) st) = Some i →
        is_write (command_of i) = true → error_of i = None →
        result client (upsertSecret props) st = inl err).
Proof.
  intros Hbad.
  destruct (sat_run client _ _ _ st (upsertSecret_malformed_tags props err))
    as [HR HP].
  split; [|exact (HR Hbad)].
  intros i (pre & post & Htrace)%list_elem_of_split.
  exact (HP pre i post Htrace Hbad).
Qed.

Lemma upsertSecret_malformed_regions (props : ResourceProperties)
    (err : exn) :
  sat (λ h j,
         parse_or_empty (A := IReplicaRegionType)
           (SecretReplicaRegions props) = inl err →
         step (command_of j) ≤ 6)
      (λ h res,
         parse_or_empty (A := IReplicaRegionType)
           (SecretReplicaRegions props) = inl err →
         (∃ e, res = inl e) ∧
         ∀ i, last h = Some i → is_policy_call (command_of i) = true →
              fatal i = None → res = inl err)
      [] (upsertSecret props).
Proof.
  sat_start P R.
  sat_walk P R
    ltac:(subst P; handler_cbn; intros Hbad; first [lia | done])
    ltac:(subst R; positive_tests; handler_cbn; intros Hbad;
          first
            [done
            |split;
             [by eauto
             |intros i [= <-]; handler_cbn; rewrite_goal; handler_cbn;
              intros; congruence]]).
Qed.

(** X7. When the replica regions text is malformed, the upsert never
    resolves and sends no region call, but the value, the tags and the
    policy are dealt with before the text is parsed: if the policy call
    passed, the upsert rejects with the exception of [JSON.parse]. *)
Theorem upsertSecret_malformed_regions_after_policy
    (props : ResourceProperties) (st : St) (err : exn) :
  parse_or_empty (A := IReplicaRegionType) (SecretReplicaRegions props)
    = inl err →
  (∀ i, i ∈ trace client (upsertSecret props) st →
        step (command_of i) ≤ 6) ∧
  (∃ e, result client (upsertSecret props) st = inl e) ∧
  (∀ i, last (trace client (upsertSecret props) st) = Some i →
        is_policy_call (command_of i) = true → fatal i = None →
        result client (upsertSecret props) st = inl err).
Proof.
  intros Hbad.
  destruct (sat_run client _ _ _ st
              (upsertSecret_malformed_regions props err)) as [HR HP].
  split; [|exact (HR Hbad)].
  intros i (pre & post & Htrace)%list_elem_of_split.
  exact (HP pre i post Htrace Hbad).
Qed.

Lemma no_existing_tag_keys (desired : list (string * string))
    (response : DescribeSecretResponse) :
  bool_decide (optional_length (Tags response) ≠ 0) = false →
  tag_keys_to_remove desired response = [].
Proof.
  unfold tag_keys_to_remove. intros Hlen%bool_decide_eq_false.
  destruct (Tags response) as [[|??]|]; simpl in *;
    [done|by destruct Hlen|done].
Qed.

Lemma tag_keys_length (desired : list (string * string))
    (response : DescribeSecretResponse) :
  length (tag_keys_to_remove desired response) =
  length (List.filter (λ t, negb (includes desired.*1 (Key t)))
            (default [] (Tags response))).
Proof. unfold tag_keys_to_remove. apply length_fmap. Qed.

(** A tag call carries the desired tags; an upsert that resolves has made
    the tag calls its properties and the describe response ask for. *)
Lemma upsertSecret_tags (props : ResourceProperties) :
  sat (λ h j,
         ∀ n tags,
           command_of j = TagResourceCommand n tags →
           ∃ desired,
             parse_or_empty (SecretTags props) = inr desired ∧
             n = SecretName props ∧
             tags = (λ kv, {| Key := kv.1; Value := kv.2 |}) <$> desired ∧
             desired ≠ [])
      (λ h res,
         res = inr tt →
         ∃ desired,
           parse_or_empty (SecretTags props) = inr desired ∧
           List.filter is_tagging (command_of <$> h) =
             match head (omap described h) with
             | Some response =>
                 if bool_decide
                      (length (tag_keys_to_remove desired response) ≠ 0)
                 then [UntagResourceCommand (SecretName props)
                         (Key <$> default [] (Tags response))]
                 else []
             | None => []
             end
             ++ (if bool_decide (length desired ≠ 0)
                 then [TagResourceCommand (SecretName props)
                         ((λ kv, {| Key := kv.1; Value := kv.2 |})
                            <$> desired)]
                 else []))
      [] (upsertSecret props).
Proof.
  sat_start P R.
  sat_walk P R
    ltac:(subst P; handler_cbn; intros ? ? Hc;
          first
            [done
            |injection Hc as <- <-; eexists; split_and!;
             [first [eassumption|reflexivity] | done | done
             |match goal with
              | E : bool_decide (length ?l ≠ 0) = true |- ?l ≠ [] =>
                  apply bool_decide_eq_true in E; intros E';
                  by rewrite E' in E
              end]])
    ltac:(subst R; handler_cbn; intros Hres;
          first
            [done
            |eexists; split; [first [eassumption|reflexivity]|];
             rewrite ?no_existing_tag_keys by assumption;
             rewrite ?tag_keys_length;
             handler_cbn; rewrite_goal; reflexivity]).
Qed.

(** X8. A tag call of an upsert carries every desired tag, in the order of
    the tags text, and is sent only when there is one; an upsert that
    resolves has sent the untag call if and only if some existing key is
    not a desired key, and then the tag call if and only if a tag is
    desired. *)
Theorem upsertSecret_tag_calls (props : ResourceProperties) (st : St) :
  (∀ pre i post n tags,
     trace client (upsertSecret props) st = pre ++ i :: post →
     command_of i = TagResourceCommand n tags →
     ∃ desired,
       parse_or_empty (SecretTags props) = inr desired ∧
       n = SecretName props ∧
       tags = (λ kv, {| Key := kv.1; Value := kv.2 |}) <$> desired ∧
       desired ≠ []) ∧
  (result client (upsertSecret props) st = inr tt →
   ∃ desired,
     parse_or_empty (SecretTags props) = inr desired ∧
     List.filter is_tagging (calls client (upsertSecret props) st) =
       match head (omap described (trace client (upsertSecret props) st)) with
       | Some response =>
           if bool_decide (length (tag_keys_to_remove desired response) ≠ 0)
           then [UntagResourceCommand (SecretName props)
                   (Key <$> default [] (Tags response))]
           else []
       | None => []
       end
       ++ (if bool_decide (length desired ≠ 0)
           then [TagResourceCommand (SecretName props)
                   ((λ kv, {| Key := kv.1; Value := kv.2 |}) <$> desired)]
           else [])).
Proof.
  destruct (sat_run client _ _ _ st (upsertSecret_tags props)) as [HR HP].
  split.
  - intros pre i post n tags Htrace Hc. exact (HP pre i post Htrace n tags Hc).
  - exact HR.
Qed.
End UpsertMore.

(** ** The three handlers against any client *)

Section Handlers.
Context `{!JSON (list (string * string)), !JSON (list IReplicaRegionType)}.
Context {St : Type} (client : ∀ c : Command, St → (exn + Output c) * St).

(** X9. A Create and an Update run the upsert of the event's properties
    and nothing else, and reject as it does.  A Create resolves with the
    secret name as physical id; an Update resolves with the physical id of
    the event, while every Secrets Manager command it sent names the
    [SecretName] of the event's properties, equal to that id or not. *)
Theorem handleUpdate_keeps_identity (event : Event) (st : St) :
  let props := ResourceProperties' event in
  let settle (id : string) :=
    let '(res, st', tr) := run client (upsertSecret props) st in
    (match res with
     | inl err => inl err
     | inr _ => inr {| PhysicalResourceId := id |}
     end, st', tr) in
  run client (handleCreate event) st = settle (SecretName props) ∧
  run client (handleUpdate event) st = settle (PhysicalResourceId' event) ∧
  ∀ i n, i ∈ trace client (handleUpdate event) st →
         secret_of (command_of i) = Some n → n = SecretName props.
Proof.
  intros props settle.
  assert (Hrun : ∀ id,
            run client (upsertSecret props;;
                        mret {| PhysicalResourceId := id |}) st = settle id).
  { intros id. rewrite run_bind. unfold settle.
    destruct (run client (upsertSecret props) st) as [[[err|[]] st'] tr];
      [done|]. simpl. by rewrite app_nil_r. }
  split; [exact (Hrun _)|]. split; [exact (Hrun _)|].
  intros i n. unfold trace, handleUpdate. fold props. rewrite Hrun.
  unfold settle.
  destruct (run client (upsertSecret props) st) as [[res st'] tr] eqn:Hup.
  simpl. intros (pre & post & Htrace)%list_elem_of_split.
  destruct (sat_run client _ _ _ st (upsertSecret_names props))
    as [_ HP].
  unfold trace in HP. rewrite Hup in HP. simpl in HP.
  destruct (HP pre i post Htrace) as [Hname _]. exact (Hname n).
Qed.

(** What a Delete sends, and how it settles. *)
Lemma handleDelete_shape (event : Event) :
  sat (λ h j,
         secret_of (command_of j) = Some (PhysicalResourceId' event) ∧
         Forall (λ i, error_of i = None) h ∧
         (∀ n f, command_of j = DeleteSecretCommand n f → f = true) ∧
         step (command_of j) ∈ [2; 7; 9] ∧
         (command_of j = DescribeSecretCommand (PhysicalResourceId' event) ∨
          (∃ regions,
             command_of j
               = RemoveRegionsFromReplicationCommand
                   (PhysicalResourceId' event) regions) ∨
          command_of j
            = DeleteSecretCommand (PhysicalResourceId' event) true) ∧
         Forall (λ i, step (command_of i) < step (command_of j)) h)
      (λ h res,
         match res with
         | inr response =>
             response = {| PhysicalResourceId := PhysicalResourceId' event |} ∧
             ∃ i, last h = Some i ∧
                  ((command_of i
                      = DescribeSecretCommand (PhysicalResourceId' event) ∧
                    ∃ err, error_of i = Some err ∧
                           instanceof_ResourceNotFoundException err = true) ∨
                   (command_of i
                      = DeleteSecretCommand (PhysicalResourceId' event) true ∧
                    error_of i = None))
         | inl err =>
             ∃ i, last h = Some i ∧ error_of i = Some err ∧
                  (is_describe (command_of i) = true →
                   instanceof_ResourceNotFoundException err = false)
         end)
      [] (handleDelete event).
Proof.
  sat_start P R.
  sat_walk P R
    ltac:(subst P; handler_cbn;
          split; [done|]; split; [forall_history ltac:(done)|];
          split; [intros n f Hc; first [done | by injection Hc as _ <-]|];
          split; [set_solver|];
          split;
          [first [by left | right; left; by eexists | by right; right]
          |forall_history ltac:(handler_cbn; lia)])
    ltac:(subst R; positive_tests; handler_cbn;
          first
            [eexists; split; [reflexivity|]; split; [reflexivity|];
             handler_cbn; first [done | by intros _]
            |split; [done|]; eexists; split; [reflexivity|];
             first
               [left; split; [reflexivity|]; eexists; by split
               |right; by split]]).
Qed.

(** X10. A Delete sends three kinds of command and no other, each naming
    the physical id of the event and never the [SecretName] of the
    properties: the describe, the removal of regions, and the delete-secret
    with the deletion forced.  It sends them in this order, none twice, and
    each only after every earlier one has resolved.  It resolves, always
    with the physical id of the event, in two cases only: its last call is
    the describe and was answered "resource not found", or its last call is
    the delete-secret and resolved.  It rejects with the exception of its
    last call, which is then no "resource not found" of the describe. *)
Theorem handleDelete_outcome (event : Event) (st : St) :
  let id := PhysicalResourceId' event in
  (∀ pre i post,
     trace client (handleDelete event) st = pre ++ i :: post →
     (command_of i = DescribeSecretCommand id ∨
      (∃ regions,
         command_of i = RemoveRegionsFromReplicationCommand id regions) ∨
      command_of i = DeleteSecretCommand id true) ∧
     (∀ j, j ∈ pre →
           error_of j = None ∧ step (command_of j) < step (command_of i))) ∧
  (∀ response,
     result client (handleDelete event) st = inr response →
     response = {| PhysicalResourceId := id |} ∧
     ∃ i, last (trace client (handleDelete event) st) = Some i ∧
          ((command_of i = DescribeSecretCommand id ∧
            ∃ err, error_of i = Some err ∧
                   instanceof_ResourceNotFoundException err = true) ∨
           (command_of i = DeleteSecretCommand id true ∧
            error_of i = None))) ∧
  (∀ err,
     result client (handleDelete event) st = inl err →
     ∃ i, last (trace client (handleDelete event) st) = Some i ∧
          error_of i = Some err ∧
          (is_describe (command_of i) = true →
           instanceof_ResourceNotFoundException err = false)).
Proof.
  intros id.
  destruct (sat_run client _ _ _ st (handleDelete_shape event)) as [HR HP].
  split; [|split].
  - intros pre i post Htrace.
    destruct (HP pre i post Htrace) as (_ & Hpre & _ & _ & Hkind & Horder).
    split; [done|]. intros j Hj.
    rewrite Forall_forall in Hpre. rewrite Forall_forall in Horder.
    split; [by apply Hpre|by apply Horder].
  - intros response Hres. by rewrite Hres in HR.
  - intros err Hres. by rewrite Hres in HR.
Qed.

(** X11. The two describe answers of a Delete that reach neither the early
    return nor the removal of replicas.  An exception other than "resource
    not found" is the rejection of the Delete, with no further call.  A
    response without replica regions is followed by the delete-secret
    command alone, and the Delete settles as that command does. *)
Theorem handleDelete_other_describe_answers (event : Event) (st st1 : St) :
  let id := PhysicalResourceId' event in
  (∀ err,
     client (DescribeSecretCommand id) st = (inl err, st1) →
     instanceof_ResourceNotFoundException err = false →
     run client (handleDelete event) st
       = (inl err, st1, [Sent (DescribeSecretCommand id) (inl err)])) ∧
  (∀ response,
     client (DescribeSecretCommand id) st = (inr response, st1) →
     optional_length (ReplicationStatus response) = 0 →
     let deletion := client (DeleteSecretCommand id true) st1 in
     run client (handleDelete event) st
       = (match deletion.1 with
          | inl err => inl err
          | inr _ => inr {| PhysicalResourceId := id |}
          end,
          deletion.2,
          [Sent (DescribeSecretCommand id) (inr response);
           Sent (DeleteSecretCommand id true) deletion.1])).
Proof.
  intros id. split.
  - intros err Hdescribe Hother. unfold_handler. cbn. fold id.
    rewrite Hdescribe. cbn. by rewrite Hother.
  - intros response Hdescribe Hnone. unfold_handler. cbn. fold id.
    rewrite Hdescribe. cbn. rewrite bool_decide_eq_false_2 by (by intros ?).
    cbn. by destruct (client (DeleteSecretCommand id true) st1)
      as [[?|[]] ?].
Qed.
End Handlers.

(** ** The upsert in steps *)

Section Steps.
Context `{!JSON (list (string * string)), !JSON (list IReplicaRegionType)}.

(** [upsertSecret] is its steps in sequence. *)
Lemma upsertSecret_in_steps (props : ResourceProperties) :
  upsertSecret props =
    (response ← send (GetObjectCommand (S3BucketName props)
                        (S3ObjectKey props));
     secretBody ← streamToString (Body response);
     decodedSecret ← decodeSops secretBody (SecretType' props);
     '(secretExists, existingTags, existingReplicaRegions) ←
       describe_step props;
     write_step props secretExists decodedSecret;;
     newTags ← of_result
       (parse_or_empty (A := string * string) (SecretTags props));
     untag_step props existingTags newTags;;
     tag_step props newTags;;
     policy_step props;;
     newReplicatRegions ← of_result
       (parse_or_empty (A := IReplicaRegionType)
          (SecretReplicaRegions props));
     remove_regions_step props secretExists existingReplicaRegions
       newReplicatRegions;;
     replicate_step props newReplicatRegions).
Proof. reflexivity. Qed.
End Steps.

Section Settles.
Context {St : Type} (client : ∀ c : Command, St → (exn + Output c) * St).

Lemma settles_bind {A B : Type} (p : Prog A) (k : A → Prog B)
    (st st' st'' : St) (a : A) (b : B) :
  settles client p st a st' →
  settles client (k a) st' b st'' →
  settles client (p ≫= k) st b st''.
Proof.
  unfold settles, result, final. rewrite run_bind.
  destruct (run client p st) as [[res s1] tr]. simpl.
  intros [-> ->].
  by destruct (run client (k a) st') as [[??]?].
Qed.

Lemma calls_bind {A B : Type} (p : Prog A) (k : A → Prog B)
    (st st' : St) (a : A) :
  settles client p st a st' →
  calls client (p ≫= k) st = calls client p st ++ calls client (k a) st'.
Proof.
  unfold settles, calls, trace, result, final. rewrite run_bind.
  destruct (run client p st) as [[res s1] tr]. simpl.
  intros [-> ->].
  destruct (run client (k a) st') as [[??]?]. simpl.
  by rewrite fmap_app.
Qed.

Lemma run_bind_assoc {A B C : Type} (p : Prog A) (f : A → Prog B)
    (g : B → Prog C) (st : St) :
  run client ((p ≫= f) ≫= g) st = run client (p ≫= λ x, f x ≫= g) st.
Proof.
  revert st. unfold mbind, Prog_bind.
  induction p as [a|err|c k IH]; intros st; simpl; [done..|].
  destruct (client c st) as [r st']. by rewrite IH.
Qed.

Lemma settles_assoc {A B C : Type} (p : Prog A) (f : A → Prog B)
    (g : B → Prog C) (st st' : St) (c : C) :
  settles client ((p ≫= f) ≫= g) st c st' →
  settles client (p ≫= λ x, f x ≫= g) st c st'.
Proof. unfold settles, result, final. by rewrite run_bind_assoc. Qed.

Lemma settles_final {A : Type} (p : Prog A) (st st' st'' : St) (a : A) :
  settles client p st a st' → st' = st'' → settles client p st a st''.
Proof. by intros ? <-. Qed.

Lemma settles_ret {A : Type} (a : A) (st : St) :
  settles client (mret a) st a st.
Proof. done. Qed.

Lemma settles_of_result {A : Type} (r : exn + A) (a : A) (st : St) :
  r = inr a → settles client (of_result r) st a st.
Proof. by intros ->. Qed.

Lemma settles_send (c : Command) (st st' : St) (out : Output c) :
  client c st = (inr out, st') → settles client (send c) st out st'.
Proof. unfold settles, result, final. rewrite run_send. by intros ->. Qed.
End Settles.

(** ** The reference store, step by step *)

Lemma Secret_eq (s s' : Secret) :
  secret_value s = secret_value s' →
  secret_description s = secret_description s' →
  secret_kms_key s = secret_kms_key s' →
  secret_tags s = secret_tags s' →
  secret_policy s = secret_policy s' →
  secret_replicas s = secret_replicas s' →
  s = s'.
Proof. destruct s, s'. simpl. by intros -> -> -> -> -> ->. Qed.

Lemma on_secret_resolved (name : string) (f : Secret → exn + Secret)
    (store : gmap string Secret) (s s' : Secret) :
  store !! name = Some s → f s = inr s' →
  on_secret name f store = (inr tt, <[name := s']> store).
Proof. unfold on_secret. by intros -> ->. Qed.

Lemma dom_foldr_delete {V : Type} (m : gmap string V) (l : list string) :
  dom (foldr delete m l) = dom m ∖ list_to_set l.
Proof.
  induction l as [|x l IH]; simpl; [set_solver|].
  rewrite dom_delete_L, IH. set_solver.
Qed.

Lemma dom_add_replicas (regions : list ReplicaRegionType)
    (m : gmap string (option string)) :
  dom (add_replicas regions m) = dom m ∪ list_to_set (Region' <$> regions).
Proof.
  induction regions as [|r regions IH]; csimpl; [set_solver|].
  destruct (add_replicas regions m !! Region' r) as [k|] eqn:Hr.
  - apply (elem_of_dom_2 (D := gset string)) in Hr. set_solver.
  - rewrite dom_insert_L, IH. set_solver.
Qed.

Lemma add_replicas_present (regions : list ReplicaRegionType)
    (m : gmap string (option string)) :
  list_to_set (Region' <$> regions) ⊆ dom m →
  add_replicas regions m = m.
Proof.
  induction regions as [|r regions IH]; csimpl; [done|].
  intros Hsub. rewrite IH by set_solver.
  assert (Hr : Region' r ∈ dom m) by set_solver.
  apply elem_of_dom in Hr as [k ->]. done.
Qed.

Lemma regions_to_remove_spec (desired : list IReplicaRegionType)
    (s : Secret) (x : string) :
  x ∈ regions_to_remove desired (describe s) ↔
  x ∈ dom (secret_replicas s) ∧ x ∉ region <$> desired.
Proof.
  unfold regions_to_remove. rewrite describe_regions.
  rewrite list_elem_of_In, filter_In, <- list_elem_of_In.
  rewrite negb_true_iff, <- not_true_iff_false, includes_spec.
  rewrite elem_of_dom, list_elem_of_fmap.
  split; intros [Hx Hnot]; (split; [|done]).
  - destruct Hx as ([k v] & -> & Hkv%elem_of_map_to_list). by exists v.
  - destruct Hx as [v Hv]. exists (x, v). split; [done|].
    by apply elem_of_map_to_list.
Qed.

Lemma dom_reconciled_replicas (desired : list IReplicaRegionType)
    (s : Secret) :
  dom (reconciled_replicas desired s) = list_to_set (region <$> desired).
Proof.
  unfold reconciled_replicas. rewrite dom_add_replicas, dom_foldr_delete.
  assert (Hadd : Region' <$> regions_to_add desired = region <$> desired).
  { unfold regions_to_add. rewrite <- list_fmap_compose. done. }
  rewrite Hadd. apply set_eq. intros x.
  rewrite elem_of_union, elem_of_difference, !elem_of_list_to_set,
    regions_to_remove_spec.
  split; [|by right].
  intros [[Hx Hnot]|?]; [|done].
  destruct (decide (x ∈ region <$> desired)); [done|]. by destruct Hnot.
Qed.

Ltac settles_send_now :=
  lazymatch goal with
  | |- settles _ (send ?c) _ _ _ => apply (settles_send _ c); simpl
  end.

Section StoreSteps.
Variable env : Environment.

Lemma describe_step_on_store (props : ResourceProperties)
    (store : gmap string Secret) :
  settles (store_client env) (describe_step props) store
    (match store !! SecretName props with
     | Some s => (true, Tags (describe s), ReplicationStatus (describe s))
     | None => (false, None, None)
     end) store ∧
  calls (store_client env) (describe_step props) store
    = [DescribeSecretCommand (SecretName props)].
Proof.
  unfold settles, describe_step. unfold_handler. cbn -[describe].
  by destruct (store !! SecretName props).
Qed.

Lemma write_step_on_store (props : ResourceProperties) (value : JSString)
    (secretExists : bool) (store : gmap string Secret) :
  secretExists = bool_decide (is_Some (store !! SecretName props)) →
  settles (store_client env) (write_step props secretExists value) store tt
    (<[SecretName props
         := written props (trim value) (store !! SecretName props)]> store).
Proof.
  intros ->. unfold settles, write_step. unfold_handler.
  destruct (store !! SecretName props) as [s|] eqn:Hs.
  - rewrite bool_decide_eq_true_2 by done. cbn -[trim].
    unfold on_secret. by rewrite Hs.
  - rewrite bool_decide_eq_false_2 by (by intros [??]). cbn -[trim].
    by rewrite Hs.
Qed.

(** The two tag steps leave exactly the desired tags, when these have
    distinct keys and fit the limit of the store. *)
Lemma tag_steps_on_store (props : ResourceProperties)
    (existingTags : option (list Tag)) (desired : list (string * string))
    (store : gmap string Secret) (s : Secret) :
  store !! SecretName props = Some s →
  existingTags = Tags (describe s) ∨ (existingTags = None ∧ secret_tags s = ∅) →
  NoDup desired.*1 →
  length desired ≤ tag_limit →
  settles (store_client env)
    (untag_step props existingTags desired;; tag_step props desired) store tt
    (<[SecretName props := set_tags (list_to_map desired) s]> store).
Proof.
  intros Hs Hexisting Hnodup Hlen.
  assert (Hsize : size (list_to_map desired : gmap string string) ≤ tag_limit).
  { by rewrite map_size_list_to_map. }
  assert (Htag : ∀ store1 s1,
            store1 !! SecretName props = Some s1 →
            tag ((λ kv, {| Key := kv.1; Value := kv.2 |}) <$> desired)
              (secret_tags s1) = list_to_map desired →
            settles (store_client env) (tag_step props desired) store1 tt
              (<[SecretName props := set_tags (list_to_map desired) s1]>
                 store1)).
  { intros store1 s1 Hs1 Hall. unfold tag_step.
    case_bool_decide as Hdesired.
    - settles_send_now.
      apply (on_secret_resolved _ _ _ s1); [done|].
      by rewrite Hall, bool_decide_eq_true_2.
    - assert (desired = []) as Hnil by (apply nil_length_inv; lia).
      rewrite Hnil in Hall |- *. simpl in Hall.
      replace (set_tags (list_to_map []) s1) with s1
        by (apply Secret_eq; done).
      rewrite insert_id by done. apply settles_ret. }
  unfold untag_step.
  destruct (bool_decide (optional_length existingTags ≠ 0)) eqn:Hsome;
    [destruct (bool_decide (length (List.filter _ _) ≠ 0)) eqn:Hremove|].
  - destruct Hexisting as [->|[-> _]]; [|done].
    eapply settles_bind.
    + settles_send_now.
      by apply (on_secret_resolved _ _ _ s).
    + simpl.
      replace (<[SecretName props := set_tags (list_to_map desired) s]> store)
        with (<[SecretName props
                  := set_tags (list_to_map desired)
                       (set_tags
                          (untag (Key <$> default [] (Tags (describe s)))
                             (secret_tags s)) s)]>
                (<[SecretName props
                     := set_tags
                          (untag (Key <$> default [] (Tags (describe s)))
                             (secret_tags s)) s]> store))
        by (by rewrite insert_insert_eq).
      apply Htag; [apply lookup_insert_eq|]. cbn -[describe tag untag].
      rewrite describe_keys. unfold untag. rewrite foldr_delete_all.
      by rewrite tag_union, (right_id_L ∅ (∪)).
  - eapply settles_bind; [apply settles_ret|].
    apply Htag; [done|].
    destruct Hexisting as [->|[-> Hnone]].
    + apply tag_covers, nil_length_inv.
      apply bool_decide_eq_false in Hremove. lia.
    + by rewrite Hnone, tag_union, (right_id_L ∅ (∪)).
  - eapply settles_bind; [apply settles_ret|].
    apply Htag; [done|].
    apply bool_decide_eq_false in Hsome.
    assert (Hnone : secret_tags s = ∅).
    { destruct Hexisting as [->|[_ ?]]; [|done].
      apply no_existing_tags. lia. }
    by rewrite Hnone, tag_union, (right_id_L ∅ (∪)).
Qed.

Lemma desired_policy_put (props : ResourceProperties) :
  truthy (SecretPolicy props) = true →
  Some (default "" (SecretPolicy props)) = desired_policy props.
Proof.
  unfold desired_policy. intros Hset. rewrite Hset.
  by destruct (SecretPolicy props).
Qed.

Lemma policy_step_on_store (props : ResourceProperties)
    (store : gmap string Secret) (s : Secret) :
  store !! SecretName props = Some s →
  settles (store_client env) (policy_step props) store tt
    (<[SecretName props := set_policy (desired_policy props) s]> store).
Proof.
  intros Hs. unfold policy_step.
  destruct (truthy (SecretPolicy props)) eqn:Hset.
  - settles_send_now.
    apply (on_secret_resolved _ _ _ s); [done|].
    by rewrite desired_policy_put.
  - unfold desired_policy. rewrite Hset.
    unfold settles. unfold_handler. cbn. unfold on_secret. rewrite Hs.
    destruct (secret_policy s) as [p|] eqn:Hp; cbn; [done|].
    split; [done|].
    replace (set_policy None s) with s by (apply Secret_eq; done).
    by rewrite insert_id.
Qed.

Lemma region_steps_on_store (props : ResourceProperties)
    (secretExists : bool)
    (existing : option (list ReplicationStatusType))
    (desired : list IReplicaRegionType)
    (store : gmap string Secret) (s : Secret) :
  store !! SecretName props = Some s →
  (secretExists = true ∧ existing = ReplicationStatus (describe s)) ∨
    (secretExists = false ∧ secret_replicas s = ∅) →
  settles (store_client env)
    (remove_regions_step props secretExists existing desired;;
     replicate_step props desired) store tt
    (<[SecretName props := set_replicas (reconciled_replicas desired s) s]>
       store).
Proof.
  intros Hs Hexisting.
  assert (Hadd : ∀ store1 s1 m,
            store1 !! SecretName props = Some s1 →
            add_replicas (regions_to_add desired) (secret_replicas s1) = m →
            settles (store_client env) (replicate_step props desired) store1
              tt (<[SecretName props := set_replicas m s1]> store1)).
  { intros store1 s1 m Hs1 <-. unfold replicate_step.
    case_bool_decide as Hdesired.
    - settles_send_now.
      by apply (on_secret_resolved _ _ _ s1).
    - assert (desired = []) as -> by (apply nil_length_inv; lia).
      simpl.
      replace (set_replicas (secret_replicas s1) s1) with s1
        by (apply Secret_eq; done).
      rewrite insert_id by done. apply settles_ret. }
  assert (Hkeep : regions_to_remove desired (describe s) = [] →
            settles (store_client env) (replicate_step props desired) store
              tt (<[SecretName props
                      := set_replicas (reconciled_replicas desired s) s]>
                    store)).
  { intros Hnone. apply Hadd; [done|].
    unfold reconciled_replicas. by rewrite Hnone. }
  assert (Hempty : secret_replicas s = ∅ →
            regions_to_remove desired (describe s) = []).
  { intros Hnone. unfold regions_to_remove.
    rewrite describe_regions, Hnone, map_to_list_empty. done. }
  unfold remove_regions_step.
  destruct (secretExists
            && bool_decide (optional_length existing ≠ 0)) eqn:Hsome;
    [destruct (bool_decide (length (List.filter _ _) ≠ 0)) eqn:Hremove|].
  - apply andb_true_iff in Hsome as [-> Hsome].
    destruct Hexisting as [[_ ->]|[? _]]; [|done].
    eapply settles_bind.
    + settles_send_now.
      by apply (on_secret_resolved _ _ _ s).
    + simpl.
      replace (<[SecretName props
                   := set_replicas (reconciled_replicas desired s) s]>
                 store)
          with (<[SecretName props
                    := set_replicas (reconciled_replicas desired s)
                         (set_replicas
                            (foldr delete (secret_replicas s)
                               (regions_to_remove desired (describe s))) s)]>
                  (<[SecretName props
                       := set_replicas
                            (foldr delete (secret_replicas s)
                               (regions_to_remove desired (describe s))) s]>
                     store))
          by (by rewrite insert_insert_eq).
      apply Hadd; [apply lookup_insert_eq|done].
  - eapply settles_bind; [apply settles_ret|].
    apply andb_true_iff in Hsome as [-> Hsome].
    destruct Hexisting as [[_ ->]|[_ Hnone]]; [|by apply Hkeep, Hempty].
    apply Hkeep, nil_length_inv.
    apply bool_decide_eq_false in Hremove. unfold regions_to_remove. lia.
  - eapply settles_bind; [apply settles_ret|].
    destruct Hexisting as [[-> ->]|[_ Hnone]]; [|by apply Hkeep, Hempty].
    simpl in Hsome. apply bool_decide_eq_false in Hsome.
    apply Hkeep, Hempty, map_to_list_empty_iff, nil_length_inv.
    simpl in Hsome. rewrite length_fmap in Hsome. lia.
Qed.
End StoreSteps.

Section StoreUpsert.
Context `{!JSON (list (string * string)), !JSON (list IReplicaRegionType)}.
Variable env : Environment.

(** On the reference store an upsert whose inputs are delivered and parse
    resolves, and rewrites its secret to [upserted]; the rest of the store
    stays. *)
Lemma upsertSecret_on_store (props : ResourceProperties)
    (store : gmap string Secret) (body : string) (out : ExecOutput)
    (tags : list (string * string)) (regions : list IReplicaRegionType) :
  blob_source env (S3BucketName props) (S3ObjectKey props)
    = inr {| Body := inr body |} →
  decrypt env (sops_command body (SecretType' props)) = inr out →
  stderr out = "" →
  parse_or_empty (SecretTags props) = inr tags →
  parse_or_empty (SecretReplicaRegions props) = inr regions →
  NoDup tags.*1 →
  length tags ≤ tag_limit →
  settles (store_client env) (upsertSecret props) store tt
    (<[SecretName props
         := upserted props (trim (stdout out)) tags regions
              (store !! SecretName props)]> store).
Proof.
  intros Hblob Hdecrypt Hquiet Htags Hregions Hnodup Hlen.
  rewrite upsertSecret_in_steps.
  eapply settles_final.
  - eapply settles_bind; [settles_send_now; by rewrite Hblob|].
    eapply settles_bind; [by apply settles_of_result|].
    eapply settles_bind.
    { unfold decodeSops. eapply settles_bind.
      - settles_send_now. by rewrite Hdecrypt.
      - rewrite Hquiet. apply settles_ret. }
    eapply settles_bind; [apply describe_step_on_store|].
    destruct (store !! SecretName props) as [s0|] eqn:Hs0.
    + eapply settles_bind.
      { apply write_step_on_store. by rewrite Hs0. }
      eapply settles_bind; [by apply settles_of_result|].
      apply settles_assoc. eapply settles_bind.
      { eapply tag_steps_on_store;
          [apply lookup_insert_eq|left; rewrite Hs0; reflexivity|done..]. }
      eapply settles_bind.
      { apply policy_step_on_store, lookup_insert_eq. }
      eapply settles_bind; [by apply settles_of_result|].
      eapply region_steps_on_store;
        [apply lookup_insert_eq|left; rewrite Hs0; by split].
    + eapply settles_bind.
      { apply write_step_on_store. by rewrite Hs0. }
      eapply settles_bind; [by apply settles_of_result|].
      apply settles_assoc. eapply settles_bind.
      { eapply tag_steps_on_store;
          [apply lookup_insert_eq|right; rewrite Hs0; by split|done..]. }
      eapply settles_bind.
      { apply policy_step_on_store, lookup_insert_eq. }
      eapply settles_bind; [by apply settles_of_result|].
      eapply region_steps_on_store;
        [apply lookup_insert_eq|right; rewrite Hs0; by split].
  - by rewrite !insert_insert_eq.
Qed.
End StoreUpsert.

(** ** Whole upserts on the reference store *)

Lemma upserted_again (props : ResourceProperties) (value : JSString)
    (tags : list (string * string)) (regions : list IReplicaRegionType)
    (old : option Secret) :
  upserted props value tags regions
    (Some (upserted props value tags regions old))
  = upserted props value tags regions old.
Proof.
  set (once := upserted props value tags regions old).
  apply Secret_eq.
  - unfold once, upserted, written. simpl. by destruct old.
  - unfold once, upserted, written. simpl.
    by destruct old, (SecretDescription props).
  - unfold once, upserted, written. simpl.
    by destruct old, (SecretKmsKeyArn props).
  - done.
  - done.
  - change (reconciled_replicas regions once = secret_replicas once).
    assert (Hdom : dom (secret_replicas once)
                   = list_to_set (region <$> regions)).
    { apply dom_reconciled_replicas. }
    unfold reconciled_replicas.
    assert (Hnone : regions_to_remove regions (describe once) = []).
    { apply elem_of_nil_inv. intros x [Hx Hnot]%regions_to_remove_spec.
      rewrite Hdom, elem_of_list_to_set in Hx. by destruct Hnot. }
    rewrite Hnone. cbn [foldr]. apply add_replicas_present.
    rewrite Hdom. unfold regions_to_add. by rewrite <- list_fmap_compose.
Qed.

Lemma sat_impl {A : Type} (P P' : list Interaction → Interaction → Prop)
    (R R' : list Interaction → exn + A → Prop) (p : Prog A) :
  (∀ h j, P h j → P' h j) → (∀ h r, R h r → R' h r) →
  ∀ h, sat P R h p → sat P' R' h p.
Proof.
  intros HP HR. induction p as [a|err|c k IH]; intros h; simpl; [by auto..|].
  intros Hsat r. destruct (Hsat r). split; [by auto|]. by apply IH.
Qed.

(** A property of the client's state that every command of [p] preserves
    holds after [p] if it held before. *)
Lemma final_preserves {A St : Type}
    (client : ∀ c : Command, St → (exn + Output c) * St)
    (Q : Command → Prop) (Inv : St → Prop) (p : Prog A) :
  (∀ c st, Q c → Inv st → Inv (client c st).2) →
  ∀ h st, sat (λ _ j, Q (command_of j)) (λ _ _, True) h p →
          Inv st → Inv (final client p st).
Proof.
  intros Hstep. unfold final.
  induction p as [a|err|c k IH]; intros h st Hsat Hinv; simpl; [done..|].
  destruct (Hsat ((client c st).1)) as [HQ Hk].
  specialize (Hstep c st HQ Hinv). specialize (IH _ _ _ Hk Hstep).
  destruct (client c st) as [r st']. simpl in *.
  by destruct (run client (k r) st') as [[??]?].
Qed.

Lemma final_then_ret {A B St : Type}
    (client : ∀ c : Command, St → (exn + Output c) * St)
    (p : Prog A) (b : B) (st : St) :
  final client (p;; mret b) st = final client p st.
Proof.
  unfold final. rewrite run_bind.
  by destruct (run client p st) as [[[?|?] ?] ?].
Qed.

(** A command of the reference store changes the secret it names and no
    other. *)
Lemma store_client_frame (env : Environment) (c : Command)
    (store : gmap string Secret) (n : string) :
  secret_of c ≠ Some n →
  (store_client env c store).2 !! n = store !! n.
Proof.
  assert (Hon : ∀ name f,
            name ≠ n → (on_secret name f store).2 !! n = store !! n).
  { intros name f Hne. unfold on_secret.
    destruct (store !! name) as [s|]; [|done].
    destruct (f s); simpl; [done|]. by apply lookup_insert_ne. }
  destruct c; simpl; intros Hne; try done; try (apply Hon; congruence).
  - by destruct (store !! SecretId).
  - destruct (store !! Name); simpl; [done|].
    apply lookup_insert_ne. congruence.
  - destruct (store !! SecretId) as [s|]; simpl; [|done].
    case_bool_decide; simpl; [|done].
    destruct ForceDeleteWithoutRecovery; [|done].
    apply lookup_delete_ne. congruence.
Qed.

Section StoreWhole.
Context `{!JSON (list (string * string)), !JSON (list IReplicaRegionType)}.
Variable env : Environment.

(** X12. On the reference store, an upsert whose encrypted file is
    delivered and decrypts without diagnostic, whose tags and regions text
    parse, and whose tags have distinct keys and are at most 50, resolves
    and leaves the named secret reconciled in full: the value is the
    trimmed plaintext, the tags are the desired tags, the policy is the
    desired policy or none, the replica regions are the desired regions,
    and description and key are those of the properties where given, the
    former ones otherwise. *)
Theorem upsertSecret_reconciles_secret (props : ResourceProperties)
    (store : gmap string Secret) (body : string) (out : ExecOutput)
    (tags : list (string * string)) (regions : list IReplicaRegionType) :
  blob_source env (S3BucketName props) (S3ObjectKey props)
    = inr {| Body := inr body |} →
  decrypt env (sops_command body (SecretType' props)) = inr out →
  stderr out = "" →
  parse_or_empty (SecretTags props) = inr tags →
  parse_or_empty (SecretReplicaRegions props) = inr regions →
  NoDup tags.*1 →
  length tags ≤ 50 →
  result (store_client env) (upsertSecret props) store = inr tt ∧
  ∃ s,
    final (store_client env) (upsertSecret props) store !! SecretName props
      = Some s ∧
    secret_value s = trim (stdout out) ∧
    secret_tags s = list_to_map tags ∧
    secret_policy s
      = (if truthy (SecretPolicy props) then SecretPolicy props else None) ∧
    dom (secret_replicas s) = list_to_set (region <$> regions) ∧
    secret_description s
      = (if SecretDescription props is Some _ then SecretDescription props
         else store !! SecretName props ≫= secret_description) ∧
    secret_kms_key s
      = (if SecretKmsKeyArn props is Some _ then SecretKmsKeyArn props
         else store !! SecretName props ≫= secret_kms_key).
Proof.
  intros Hblob Hdecrypt Hquiet Htags Hregions Hnodup Hlen.
  destruct (upsertSecret_on_store env props store body out tags regions)
    as [Hres Hfinal]; [done..|].
  split; [done|]. rewrite Hfinal. eexists.
  split; [apply lookup_insert_eq|].
  split_and!; try done.
  - destruct (store !! SecretName props); done.
  - apply dom_reconciled_replicas.
  - destruct (store !! SecretName props); simpl;
      by destruct (SecretDescription props).
  - destruct (store !! SecretName props); simpl;
      by destruct (SecretKmsKeyArn props).
Qed.

(** X13. On the reference store an upsert is idempotent: under the
    conditions of a successful upsert, a second upsert with the same
    properties resolves and leaves the whole store as the first one left
    it. *)
Theorem upsertSecret_twice_is_once (props : ResourceProperties)
    (store : gmap string Secret) (body : string) (out : ExecOutput)
    (tags : list (string * string)) (regions : list IReplicaRegionType) :
  blob_source env (S3BucketName props) (S3ObjectKey props)
    = inr {| Body := inr body |} →
  decrypt env (sops_command body (SecretType' props)) = inr out →
  stderr out = "" →
  parse_or_empty (SecretTags props) = inr tags →
  parse_or_empty (SecretReplicaRegions props) = inr regions →
  NoDup tags.*1 →
  length tags ≤ 50 →
  let once := final (store_client env) (upsertSecret props) store in
  result (store_client env) (upsertSecret props) store = inr tt ∧
  result (store_client env) (upsertSecret props) once = inr tt ∧
  final (store_client env) (upsertSecret props) once = once.
Proof.
  intros Hblob Hdecrypt Hquiet Htags Hregions Hnodup Hlen once.
  destruct (upsertSecret_on_store env props store body out tags regions)
    as [Hres Hfinal]; [done..|].
  destruct (upsertSecret_on_store env props once body out tags regions)
    as [Hres' Hfinal']; [done..|].
  split; [done|]. split; [done|].
  rewrite Hfinal'. unfold once. rewrite Hfinal.
  by rewrite lookup_insert_eq, upserted_again, insert_insert_eq.
Qed.

(** X14. On the reference store a handler touches one secret only,
    whatever the blob source and the decrypt step answer and however the
    handler settles: a Delete the secret of the event's physical id, any
    other request the secret named in the event's properties. *)
Theorem onEvent_leaves_other_secrets (event : Event)
    (store : gmap string Secret) (n : string) :
  n ≠ (if String.eqb (RequestType event) "Delete"
       then PhysicalResourceId' event
       else SecretName (ResourceProperties' event)) →
  final (store_client env) (onEvent event) store !! n = store !! n.
Proof.
  intros Hother.
  assert (Hupsert : n ≠ SecretName (ResourceProperties' event) →
            final (store_client env)
              (upsertSecret (ResourceProperties' event)) store !! n
            = store !! n).
  { intros Hne.
    apply (final_preserves (store_client env)
             (λ c, secret_of c ≠ Some n) (λ st, st !! n = store !! n)
             _ (λ c st Hc Hst,
                  eq_trans (store_client_frame env c st n Hc) Hst) []);
      [|done].
    generalize (upsertSecret_names (ResourceProperties' event)).
    apply sat_impl; [|done].
    intros h j [Hname _] Hn. by apply Hname in Hn. }
  unfold onEvent, onEvent_try.
  destruct (String.eqb_spec (RequestType event) "Create") as [E|_].
  { rewrite E in Hother. unfold handleCreate. rewrite final_then_ret.
    by apply Hupsert. }
  destruct (String.eqb_spec (RequestType event) "Update") as [E|_].
  { rewrite E in Hother. unfold handleUpdate. rewrite final_then_ret.
    by apply Hupsert. }
  destruct (String.eqb (RequestType event) "Delete"); [|done].
  apply (final_preserves (store_client env)
           (λ c, secret_of c ≠ Some n) (λ st, st !! n = store !! n)
           _ (λ c st Hc Hst,
                eq_trans (store_client_frame env c st n Hc) Hst) []);
    [|done].
  generalize (handleDelete_shape event).
  apply sat_impl; [|done].
  intros h j [Hname _] Hn. rewrite Hname in Hn. congruence.
Qed.
End StoreWhole.

(** ** Deletes on the reference store *)

Section StoreDelete.
Context `{!JSON (list (string * string)), !JSON (list IReplicaRegionType)}.
Variable env : Environment.

Lemma handleDelete_on_store (event : Event) (store : gmap string Secret) :
  settles (store_client env) (handleDelete event) store
    {| PhysicalResourceId := PhysicalResourceId' event |}
    (delete (PhysicalResourceId' event) store).
Proof.
  set (id := PhysicalResourceId' event).
  unfold settles. unfold_handler. cbn -[describe]. fold id.
  destruct (store !! id) as [s|] eqn:Hs; cbn -[describe].
  - case_bool_decide as Hlen; cbn -[describe].
    + unfold on_secret. rewrite Hs. cbn -[describe].
      rewrite lookup_insert_eq. cbn -[describe].
      rewrite describe_regions, foldr_delete_all, bool_decide_eq_true_2
        by done.
      split; [done|]. apply delete_insert_eq.
    + simpl in Hlen. rewrite length_fmap in Hlen.
      assert (Hempty : secret_replicas s = ∅).
      { apply map_to_list_empty_iff, nil_length_inv.
        destruct (length _); [done|]. by destruct Hlen. }
      rewrite Hs. simpl. by rewrite bool_decide_eq_true_2 by done.
  - split; [done|]. symmetry. by apply delete_id.
Qed.

(** X15. On the reference store, which refuses to delete a secret that
    has replicas, a Delete always resolves with the physical id of the
    event and leaves the store without a secret of that id and otherwise
    unchanged, whatever replicas the secret had. *)
Theorem handleDelete_deletes_on_store (event : Event)
    (store : gmap string Secret) :
  result (store_client env) (handleDelete event) store
    = inr {| PhysicalResourceId := PhysicalResourceId' event |} ∧
  final (store_client env) (handleDelete event) store
    = delete (PhysicalResourceId' event) store.
Proof. apply handleDelete_on_store. Qed.

(** X16. Create and Delete are inverse on the reference store.  When no
    secret has the name, a Create that meets the conditions of a
    successful upsert resolves with a physical id, and a Delete of that
    physical id resolves and gives back the store as it was before the
    Create. *)
Theorem create_then_delete_restores (create : Event)
    (store : gmap string Secret) (body : string) (out : ExecOutput)
    (tags : list (string * string)) (regions : list IReplicaRegionType) :
  let props := ResourceProperties' create in
  blob_source env (S3BucketName props) (S3ObjectKey props)
    = inr {| Body := inr body |} →
  decrypt env (sops_command body (SecretType' props)) = inr out →
  stderr out = "" →
  parse_or_empty (SecretTags props) = inr tags →
  parse_or_empty (SecretReplicaRegions props) = inr regions →
  NoDup tags.*1 →
  length tags ≤ 50 →
  store !! SecretName props = None →
  ∃ response,
    result (store_client env) (handleCreate create) store = inr response ∧
    ∀ delete : Event,
      PhysicalResourceId' delete = PhysicalResourceId response →
      let created := final (store_client env) (handleCreate create) store in
      result (store_client env) (handleDelete delete) created
        = inr {| PhysicalResourceId := PhysicalResourceId response |} ∧
      final (store_client env) (handleDelete delete) created = store.
Proof.
  intros props Hblob Hdecrypt Hquiet Htags Hregions Hnodup Hlen Hfree.
  assert (Hcreate :
    settles (store_client env) (handleCreate create) store
      {| PhysicalResourceId := SecretName props |}
      (<[SecretName props
           := upserted props (trim (stdout out)) tags regions
                (store !! SecretName props)]> store)).
  { unfold handleCreate. fold props. eapply settles_bind.
    - by apply (upsertSecret_on_store env props store body out).
    - apply settles_ret. }
  destruct Hcreate as [Hres Hfinal]. eexists. split; [exact Hres|].
  intros delete Hid created.
  destruct (handleDelete_on_store delete created) as [Hres' Hfinal'].
  rewrite Hres', Hfinal', Hid. split; [done|].
  unfold created. rewrite Hfinal. simpl. by apply delete_insert_id.
Qed.

(** X17. An Update whose properties carry another name than the physical
    id of the resource does not rename.  Under the conditions of a
    successful upsert it resolves with the former physical id, the store
    holds a secret of the new name, and the secret of the former id is
    left as it was. *)
Theorem handleUpdate_rename_keeps_old_secret (event : Event)
    (store : gmap string Secret) (body : string) (out : ExecOutput)
    (tags : list (string * string)) (regions : list IReplicaRegionType) :
  let props := ResourceProperties' event in
  blob_source env (S3BucketName props) (S3ObjectKey props)
    = inr {| Body := inr body |} →
  decrypt env (sops_command body (SecretType' props)) = inr out →
  stderr out = "" →
  parse_or_empty (SecretTags props) = inr tags →
  parse_or_empty (SecretReplicaRegions props) = inr regions →
  NoDup tags.*1 →
  length tags ≤ 50 →
  PhysicalResourceId' event ≠ SecretName props →
  let updated := final (store_client env) (handleUpdate event) store in
  result (store_client env) (handleUpdate event) store
    = inr {| PhysicalResourceId := PhysicalResourceId' event |} ∧
  is_Some (updated !! SecretName props) ∧
  updated !! PhysicalResourceId' event = store !! PhysicalResourceId' event.
Proof.
  intros props Hblob Hdecrypt Hquiet Htags Hregions Hnodup Hlen Hrename.
  assert (Hupdate :
    settles (store_client env) (handleUpdate event) store
      {| PhysicalResourceId := PhysicalResourceId' event |}
      (<[SecretName props
           := upserted props (trim (stdout out)) tags regions
                (store !! SecretName props)]> store)).
  { unfold handleUpdate. fold props. eapply settles_bind.
    - by apply (upsertSecret_on_store env props store body out).
    - apply settles_ret. }
  destruct Hupdate as [Hres Hfinal]. cbv zeta. rewrite Hfinal.
  split; [done|]. split.
  - by rewrite lookup_insert_eq.
  - by apply lookup_insert_ne.
Qed.
End StoreDelete.

(** ** The construct *)

Lemma append_cancel (p a b : string) : p +:+ a = p +:+ b → a = b.
Proof. induction p as [|c p IH]; simpl; [done|]. intros [= ?]. by apply IH. Qed.

Section ConstructFacts.
Context `{!Stringify (list (string * string)),
          !Stringify (list IReplicaRegionType),
          !Stringify PolicyDocument}.
Variable extname : string → string.
Variable Asset_new : string → Asset.

Lemma infer_secretType_resolves (props : ISopsSecretProps) :
  (∃ t, infer_secretType extname props = inr t) ↔
  is_Some (secretType props) ∨
  extname (path props) ∈ [".json"; ".yaml"; ".yml"; ".env"; ".txt"].
Proof.
  unfold infer_secretType.
  destruct (secretType props) as [t|].
  { split; [by left|by eauto]. }
  repeat match goal with
         | |- context [String.eqb ?x ?y] =>
             destruct (String.eqb_spec x y) as [->|?]
         end.
  1-5: split; [intros _; right; set_solver|by eauto].
  split; [by intros [? [=]]|].
  intros [[? [=]]|Hin]. set_solver.
Qed.

Lemma infer_secretType_error (props : ISopsSecretProps) (err : exn) :
  infer_secretType extname props = inl err →
  err = Error "Could not infer file type from file name".
Proof.
  unfold infer_secretType. destruct (secretType props); [done|].
  repeat match goal with
         | |- context [String.eqb ?x ?y] => destruct (String.eqb x y)
         end; congruence.
Qed.

Lemma too_many_tags (props : ISopsSecretProps) :
  match secretTags props with
  | Some tags => bool_decide (50 < length tags)
  | None => false
  end = false ↔ length (default [] (secretTags props)) ≤ 50.
Proof.
  destruct (secretTags props) as [tags|]; simpl.
  - rewrite bool_decide_eq_false. lia.
  - split; [lia|done].
Qed.

(** X18. The constructor returns if and only if the tracker does not hold
    the tracking key of the declaration, the declaration has at most 50
    tags, and the file type is given or the file extension is one of
    [.json], [.yaml], [.yml], [.env], [.txt].  It throws the uniqueness
    error before it looks at the tags, and the tags error before it looks
    at the file type. *)
Theorem SopsSecret_accepts_iff (stack : Stack) (props : ISopsSecretProps)
    (nameTracker : gmap string bool) :
  let outcome := (SopsSecret extname Asset_new stack props nameTracker).1 in
  ((∃ declared, outcome = inr declared) ↔
   nameTracker !! trackingKey stack props = None ∧
   well_formed extname props) ∧
  (is_Some (nameTracker !! trackingKey stack props) →
   outcome = inl (Error "SopsSecret must have unique secretName")) ∧
  (nameTracker !! trackingKey stack props = None →
   50 < length (default [] (secretTags props)) →
   outcome = inl (Error "Can not set more-than 50 tags")) ∧
  (nameTracker !! trackingKey stack props = None →
   length (default [] (secretTags props)) ≤ 50 →
   ¬ (is_Some (secretType props) ∨
      extname (path props) ∈ [".json"; ".yaml"; ".yml"; ".env"; ".txt"]) →
   outcome = inl (Error "Could not infer file type from file name")).
Proof.
  unfold SopsSecret, well_formed. cbv zeta.
  destruct (nameTracker !! trackingKey stack props) as [b|] eqn:Hkey.
  { rewrite bool_decide_eq_true_2 by done. simpl.
    split_and!; [|done..].
    split; [by intros [? [=]]|by intros [[=] _]]. }
  rewrite bool_decide_eq_false_2 by (by intros [??]).
  destruct (match secretTags props with
            | Some tags => bool_decide (50 < length tags)
            | None => false
            end) eqn:Hmany.
  { assert (¬ length (default [] (secretTags props)) ≤ 50) as Hnot.
    { intros Hle. apply too_many_tags in Hle. congruence. }
    simpl. split_and!; [|done|done|by intros _ ?].
    split; [by intros [? [=]]|by intros [_ [? _]]]. }
  apply too_many_tags in Hmany.
  destruct (infer_secretType extname props) as [err|t] eqn:Hinfer; simpl.
  - rewrite (infer_secretType_error props err Hinfer).
    split_and!; [|done|intros _ ?; lia|done].
    split; [by intros [? [=]]|].
    intros [_ [_ Hknown]].
    apply infer_secretType_resolves in Hknown as [? Hknown]. congruence.
  - assert (is_Some (secretType props) ∨
            extname (path props) ∈ [".json"; ".yaml"; ".yml"; ".env"; ".txt"])
      as Hknown by (apply infer_secretType_resolves; eauto).
    split_and!; [|done|intros _ ?; lia|by intros _ _ []].
    split; [done|by eauto].
Qed.

Lemma SopsSecret_registers (stack : Stack) (props : ISopsSecretProps)
    (nameTracker : gmap string bool) :
  let tracker' := (SopsSecret extname Asset_new stack props nameTracker).2 in
  is_Some (tracker' !! trackingKey stack props) ∧
  ∀ k, k ≠ trackingKey stack props → tracker' !! k = nameTracker !! k.
Proof.
  unfold SopsSecret. cbv zeta. case_bool_decide as Hkey; simpl; [done|].
  assert (∀ r : exn + Stack * ResourceProperties,
            is_Some ((r, <[trackingKey stack props := true]> nameTracker).2
                       !! trackingKey stack props) ∧
            ∀ k, k ≠ trackingKey stack props →
                 (r, <[trackingKey stack props := true]> nameTracker).2 !! k
                 = nameTracker !! k) as Hafter.
  { intros r. simpl. split; [by rewrite lookup_insert_eq|].
    intros k Hk. by apply lookup_insert_ne. }
  destruct (match secretTags props with
            | Some tags => bool_decide (50 < length tags)
            | None => false
            end); [apply Hafter|].
  destruct (infer_secretType extname props); apply Hafter.
Qed.

(** X19. A secret name is taken for its stack by the first constructor
    call that passes the uniqueness check, whether or not that call goes on
    to throw for its tags or its file type: any later declaration of the
    name in a stack with that id throws the uniqueness error and leaves
    the tracker as it is.  A declaration of another name in that stack is
    never refused for the first one. *)
Theorem SopsSecret_name_stays_taken (stack stack' : Stack)
    (props props' : ISopsSecretProps) (nameTracker : gmap string bool) :
  stackId stack' = stackId stack →
  let tracker' := (SopsSecret extname Asset_new stack props nameTracker).2 in
  (secretName props' = secretName props →
   SopsSecret extname Asset_new stack' props' tracker'
     = (inl (Error "SopsSecret must have unique secretName"), tracker')) ∧
  (secretName props' ≠ secretName props →
   tracker' !! trackingKey stack' props'
     = nameTracker !! trackingKey stack' props').
Proof.
  intros Hstack tracker'.
  destruct (SopsSecret_registers stack props nameTracker) as [Htaken Hrest].
  fold tracker' in Htaken, Hrest.
  split.
  - intros Hname.
    assert (trackingKey stack' props' = trackingKey stack props) as Hkey.
    { unfold trackingKey. by rewrite Hstack, Hname. }
    unfold SopsSecret. rewrite Hkey. by rewrite bool_decide_eq_true_2.
  - intros Hname. apply Hrest. unfold trackingKey. rewrite Hstack.
    intros Heq%append_cancel%append_cancel. done.
Qed.

(** What a constructor call that returns has done. *)
Lemma SopsSecret_accepted (stack stack' : Stack) (props : ISopsSecretProps)
    (nameTracker tracker' : gmap string bool) (resource : ResourceProperties) :
  SopsSecret extname Asset_new stack props nameTracker
    = (inr (stack', resource), tracker') →
  nameTracker !! trackingKey stack props = None ∧
  tracker' = <[trackingKey stack props := true]> nameTracker ∧
  well_formed extname props ∧
  stackId stack' = stackId stack ∧
  (∃ t, infer_secretType extname props = inr t ∧
        resource = properties props t (Asset_new (path props))) ∧
  ∃ provider,
    SecretCreatorProvider stack' = Some provider ∧
    handler (onEventHandler provider)
      = handler (onEventHandler (getOrCreateProvider stack)) ∧
    rolePolicy (onEventHandler provider)
      = rolePolicy (onEventHandler (getOrCreateProvider stack))
        ++ key_statements props ∧
    readable (onEventHandler provider)
      = readable (onEventHandler (getOrCreateProvider stack))
        ++ [Asset_new (path props)].
Proof.
  unfold SopsSecret, well_formed. cbv zeta.
  destruct (nameTracker !! trackingKey stack props) as [b|] eqn:Hkey.
  { by rewrite bool_decide_eq_true_2 by done. }
  rewrite bool_decide_eq_false_2 by (by intros [??]).
  destruct (match secretTags props with
            | Some tags => bool_decide (50 < length tags)
            | None => false
            end) eqn:Hmany; [done|].
  apply too_many_tags in Hmany.
  destruct (infer_secretType extname props) as [err|t] eqn:Hinfer; [done|].
  intros [= <- <- <-].
  split_and!; [done..| |done|by eauto|].
  { apply infer_secretType_resolves. by eauto. }
  eexists. split; [done|]. unfold key_statements.
  destruct (truthy (secretKmsKeyArn props)); simpl;
    by rewrite <- ?app_assoc.
Qed.

Lemma SopsSecret_accepts (stack : Stack) (props : ISopsSecretProps)
    (nameTracker : gmap string bool) :
  nameTracker !! trackingKey stack props = None →
  well_formed extname props →
  ∃ stack' resource,
    SopsSecret extname Asset_new stack props nameTracker
      = (inr (stack', resource),
         <[trackingKey stack props := true]> nameTracker).
Proof.
  intros Hkey [Htags Htype]. unfold SopsSecret. cbv zeta.
  rewrite Hkey, bool_decide_eq_false_2 by (by intros [??]).
  apply too_many_tags in Htags. rewrite Htags.
  apply infer_secretType_resolves in Htype as [t ->]. by eauto.
Qed.

Lemma trackingKey_same_stack (stack stack' : Stack)
    (props props' : ISopsSecretProps) :
  stackId stack' = stackId stack →
  trackingKey stack' props' = trackingKey stack props ↔
  secretName props' = secretName props.
Proof.
  intros Hstack. unfold trackingKey. rewrite Hstack. split.
  - by intros Heq%append_cancel%append_cancel.
  - by intros ->.
Qed.

(** X20. A stack that declares a list of secrets is synthesised without
    exception if and only if the secret names of the list are pairwise
    distinct, none of them is taken in the tracker for this stack, and
    every declaration has at most 50 tags and a file type that is given or
    can be inferred. *)
Theorem SopsSecrets_accepts_iff (declarations : list ISopsSecretProps) :
  ∀ (stack : Stack) (nameTracker : gmap string bool),
    (∃ declared,
       (SopsSecrets extname Asset_new stack declarations nameTracker).1
         = inr declared) ↔
    NoDup (secretName <$> declarations) ∧
    Forall (λ props, nameTracker !! trackingKey stack props = None)
      declarations ∧
    Forall (well_formed extname) declarations.
Proof.
  induction declarations as [|props rest IH]; intros stack nameTracker.
  { simpl. split; [intros _|by eauto].
    split; [constructor|]. by split. }
  cbn [SopsSecrets fmap list_fmap].
  rewrite NoDup_cons, !Forall_cons.
  destruct (SopsSecret extname Asset_new stack props nameTracker)
    as [[err|[stack1 resource]] tracker1] eqn:Hfirst.
  { split; [by intros [? [=]]|].
    intros ((_ & _) & (Hkey & _) & (Hwf & _)).
    destruct (SopsSecret_accepts stack props nameTracker Hkey Hwf)
      as (? & ? & Heq). congruence. }
  destruct (SopsSecret_accepted _ _ _ _ _ _ Hfirst)
    as (Hkey & -> & Hwf & Hstack & _).
  specialize (IH stack1 (<[trackingKey stack props := true]> nameTracker)).
  assert (Hrest :
    Forall (λ props', (<[trackingKey stack props := true]> nameTracker)
                        !! trackingKey stack1 props' = None) rest ↔
    (secretName props ∉ secretName <$> rest) ∧
    Forall (λ props', nameTracker !! trackingKey stack props' = None) rest).
  { rewrite !Forall_forall, list_elem_of_fmap. split.
    - intros Hall. split.
      + intros (props' & Hname & Hin). specialize (Hall _ Hin).
        apply lookup_insert_None in Hall as [_ Hne]. apply Hne. symmetry.
        by apply trackingKey_same_stack.
      + intros props' Hin. specialize (Hall _ Hin).
        apply lookup_insert_None in Hall as [Hnone _].
        by rewrite <- (proj2 (trackingKey_same_stack stack stack1 props'
                               props' Hstack) eq_refl).
    - intros [Hfresh Hall] props' Hin. apply lookup_insert_None. split.
      + rewrite (proj2 (trackingKey_same_stack stack stack1 props' props'
                          Hstack) eq_refl). by apply Hall.
      + intros Heq. apply Hfresh. exists props'. split; [|done].
        symmetry. symmetry in Heq.
        by apply (trackingKey_same_stack stack stack1) in Heq. }
  destruct (SopsSecrets extname Asset_new stack1 rest _)
    as [[err|[stack2 resources]] tracker2] eqn:Hlater; simpl in *.
  - split; [by intros [? [=]]|].
    intros ((Hfresh & Hnodup) & (_ & Hkeys) & (_ & Hwfs)).
    destruct (proj2 IH) as [? [=]].
    split; [done|]. split; [|done]. by apply Hrest.
  - split; [intros _|by eauto].
    destruct (proj1 IH) as (Hnodup & Hkeys & Hwfs); [by eauto|].
    apply Hrest in Hkeys as [Hfresh Hkeys]. done.
Qed.

Lemma SopsSecrets_accepted (declarations : list ISopsSecretProps) :
  ∀ (stack stack' : Stack) (nameTracker tracker' : gmap string bool)
    (resources : list ResourceProperties),
    SopsSecrets extname Asset_new stack declarations nameTracker
      = (inr (stack', resources), tracker') →
    SecretName <$> resources = secretName <$> declarations ∧
    handler (onEventHandler (getOrCreateProvider stack'))
      = handler (onEventHandler (getOrCreateProvider stack)) ∧
    rolePolicy (onEventHandler (getOrCreateProvider stack'))
      = rolePolicy (onEventHandler (getOrCreateProvider stack))
        ++ (declarations ≫= key_statements) ∧
    readable (onEventHandler (getOrCreateProvider stack'))
      = readable (onEventHandler (getOrCreateProvider stack))
        ++ ((λ props, Asset_new (path props)) <$> declarations) ∧
    (declarations ≠ [] → is_Some (SecretCreatorProvider stack')).
Proof.
  induction declarations as [|props rest IH];
    intros stack stack' nameTracker tracker' resources.
  { simpl. intros [= <- <- <-]. by rewrite !app_nil_r. }
  cbn [SopsSecrets].
  destruct (SopsSecret extname Asset_new stack props nameTracker)
    as [[err|[stack1 resource]] tracker1] eqn:Hfirst; [done|].
  destruct (SopsSecrets extname Asset_new stack1 rest tracker1)
    as [[err|[stack2 resources2]] tracker2] eqn:Hlater; [done|].
  intros [= <- <- <-].
  destruct (SopsSecret_accepted _ _ _ _ _ _ Hfirst)
    as (_ & _ & _ & _ & (t & _ & ->) & provider & Hsome & Hh & Hrole & Hread).
  destruct (IH _ _ _ _ _ Hlater) as (Hnames & Hh' & Hrole' & Hread' & Hsome').
  assert (getOrCreateProvider stack1 = provider) as Hp.
  { unfold getOrCreateProvider. by rewrite Hsome. }
  rewrite Hp in Hh', Hrole', Hread'.
  split_and!.
  - csimpl. by rewrite Hnames.
  - congruence.
  - rewrite Hrole', Hrole. csimpl. by rewrite <- !app_assoc.
  - rewrite Hread', Hread. csimpl. by rewrite <- !app_assoc.
  - intros _. destruct rest as [|props' rest'].
    + simpl in Hlater. injection Hlater as <- _ _. by rewrite Hsome.
    + by apply Hsome'.
Qed.

(** X21. The secrets of a stack share one provider.  When a stack without
    provider has declared a non-empty list of secrets, it has a provider
    whose function runs the export [onEvent]; the role policy of that
    function is the Secrets Manager statement, once, followed by the key
    statements of the declarations in order; the function may read the
    asset of every declaration; and the stack holds one custom resource per
    declaration, in order, under the declared secret name. *)
Theorem SopsSecrets_share_one_provider
    (declarations : list ISopsSecretProps) (stack stack' : Stack)
    (nameTracker tracker' : gmap string bool)
    (resources : list ResourceProperties) :
  SecretCreatorProvider stack = None →
  declarations ≠ [] →
  SopsSecrets extname Asset_new stack declarations nameTracker
    = (inr (stack', resources), tracker') →
  SecretName <$> resources = secretName <$> declarations ∧
  ∃ provider,
    SecretCreatorProvider stack' = Some provider ∧
    handler (onEventHandler provider) = "onEvent" ∧
    rolePolicy (onEventHandler provider)
      = secretsmanager_statement :: (declarations ≫= key_statements) ∧
    readable (onEventHandler provider)
      = (λ props, Asset_new (path props)) <$> declarations.
Proof.
  intros Hnone Hsome Hrun.
  destruct (SopsSecrets_accepted _ _ _ _ _ _ Hrun)
    as (Hnames & Hh & Hrole & Hread & Hprovider).
  split; [done|].
  destruct (Hprovider Hsome) as [provider Hp]. exists provider.
  unfold getOrCreateProvider in Hh, Hrole, Hread.
  rewrite Hp, Hnone in Hh, Hrole, Hread. done.
Qed.
End ConstructFacts.

(** ** From the declaration to the store *)

Section EndToEnd.
Context `{!JSON (list (string * string)), !JSON (list IReplicaRegionType)}.
Context `{!Stringify (list (string * string)),
          !Stringify (list IReplicaRegionType),
          !Stringify PolicyDocument}.
Variable extname : string → string.
Variable Asset_new : string → Asset.
Variable env : Environment.

Lemma parse_stringified {A : Type} `{!JSON (list A), !Stringify (list A)}
    (declared : option (list A)) :
  (∀ l, declared = Some l →
        JSON_stringify l ≠ "" ∧ JSON_parse (JSON_stringify l) = inr l) →
  parse_or_empty
    (match declared with
     | Some l => Some (JSON_stringify l)
     | None => None
     end) = inr (default [] declared).
Proof.
  intros Hround. unfold parse_or_empty.
  destruct declared as [l|]; [|done].
  destruct (Hround l eq_refl) as [Hsome Hparse]. simpl.
  by destruct (JSON_stringify l).
Qed.

(** X22. What a declaration says reaches the store.  Let the constructor
    accept a declaration, let [JSON.parse] read back what [JSON.stringify]
    wrote for its tags and regions, let the asset be delivered and
    decrypted without diagnostic, and let the tag keys be distinct.  Then
    a Create event with the properties of the custom resource resolves on
    the reference store with the secret name as physical id, and the secret
    of that name holds the trimmed plaintext, exactly the declared tags and
    exactly the declared replica regions.  The limit of 50 tags that the
    store imposes is met because the constructor has checked it. *)
Theorem declared_secret_reaches_store (stack stack' : Stack)
    (props : ISopsSecretProps) (nameTracker tracker' : gmap string bool)
    (resource : ResourceProperties) (event : Event)
    (store : gmap string Secret) (body : string) (out : ExecOutput) :
  SopsSecret extname Asset_new stack props nameTracker
    = (inr (stack', resource), tracker') →
  ResourceProperties' event = resource →
  (∀ tags, secretTags props = Some tags →
           let pairs := (λ t, (key t, value t)) <$> tags in
           JSON_stringify pairs ≠ "" ∧
           JSON_parse (JSON_stringify pairs) = inr pairs) →
  (∀ regions, secretReplicaRegions props = Some regions →
              JSON_stringify regions ≠ "" ∧
              JSON_parse (JSON_stringify regions) = inr regions) →
  blob_source env (s3BucketName (Asset_new (path props)))
    (s3ObjectKey (Asset_new (path props))) = inr {| Body := inr body |} →
  decrypt env (sops_command body (SecretType' resource)) = inr out →
  stderr out = "" →
  NoDup (key <$> default [] (secretTags props)) →
  result (store_client env) (handleCreate event) store
    = inr {| PhysicalResourceId := secretName props |} ∧
  ∃ s,
    final (store_client env) (handleCreate event) store !! secretName props
      = Some s ∧
    secret_value s = trim (stdout out) ∧
    secret_tags s
      = list_to_map ((λ t, (key t, value t)) <$> default [] (secretTags props)) ∧
    dom (secret_replicas s)
      = list_to_set (region <$> default [] (secretReplicaRegions props)).
Proof.
  intros Hdeclared Hevent Htags Hregions Hblob Hdecrypt Hquiet Hnodup.
  destruct (SopsSecret_accepted _ _ _ _ _ _ _ _ Hdeclared)
    as (_ & _ & [Hlen _] & _ & (t & _ & Hresource) & _).
  set (pairs := (λ t, (key t, value t)) <$> default [] (secretTags props)).
  assert (Hpairs : parse_or_empty (SecretTags resource) = inr pairs).
  { rewrite Hresource. unfold pairs. simpl.
    destruct (secretTags props) as [tags|] eqn:Hgiven; [|done].
    pose proof (parse_stringified
                  (Some ((λ t, (key t, value t)) <$> tags))) as Hround.
    simpl in Hround. apply Hround.
    intros l [= <-]. by apply Htags. }
  assert (Hreg : parse_or_empty (SecretReplicaRegions resource)
                 = inr (default [] (secretReplicaRegions props))).
  { rewrite Hresource. simpl. by apply parse_stringified. }
  destruct (upsertSecret_on_store env resource store body out pairs
              (default [] (secretReplicaRegions props)))
    as [Hres Hfinal]; try done.
  { by rewrite Hresource. }
  { unfold pairs. by rewrite <- list_fmap_compose. }
  { unfold pairs, tag_limit. by rewrite length_fmap. }
  assert (Hname : SecretName resource = secretName props)
    by (by rewrite Hresource).
  assert (Hcreate :
    settles (store_client env) (handleCreate event) store
      {| PhysicalResourceId := secretName props |}
      (<[SecretName resource
           := upserted resource (trim (stdout out)) pairs
                (default [] (secretReplicaRegions props))
                (store !! SecretName resource)]> store)).
  { unfold handleCreate. rewrite Hevent. eapply settles_bind; [done|].
    rewrite Hname. apply settles_ret. }
  destruct Hcreate as [-> ->]. split; [done|].
  eexists. rewrite <- Hname. split; [apply lookup_insert_eq|].
  split_and!.
  - by destruct (store !! SecretName resource).
  - done.
  - apply dom_reconciled_replicas.
Qed.
End EndToEnd.

(** ** More of the handler and the construct on the sample inputs *)

(** On the sample store every call after the describe belongs to a later
    step. *)
Lemma upsertSecret_call_order_witness :
  Forall (λ j, 2 < step (command_of j))
    (drop 3 (trace (store_client sample_env)
               (@upsertSecret sample_tags_JSON sample_regions_JSON
                  sample_props) sample_store)).
Proof.
  apply Forall_forall.
  set (client := store_client sample_env).
  set (p := @upsertSecret sample_tags_JSON sample_regions_JSON sample_props).
  destruct (@upsertSecret_call_order sample_tags_JSON sample_regions_JSON _
              client sample_props sample_store
              (take 2 (trace client p sample_store))
              (drop 3 (trace client p sample_store))
              (Sent (DescribeSecretCommand sample_name)
                 (inr (describe sample_secret))))
    as (_ & _ & Hpost).
  - vm_compute. reflexivity.
  - exact Hpost.
Defined.

(** The command line of the sample run is the sops line for the body the S3
    read returned. *)
Lemma upsertSecret_names_only_its_secret_witness :
  ∃ j body,
    last (take 1 (trace (store_client sample_env)
                    (@upsertSecret sample_tags_JSON sample_regions_JSON
                       sample_props) sample_store)) = Some j ∧
    fetched j = Some body ∧
    sops_command "ENC[AES256_GCM,data:...]" json = sops_command body json.
Proof.
  set (client := store_client sample_env).
  set (p := @upsertSecret sample_tags_JSON sample_regions_JSON sample_props).
  destruct (@upsertSecret_names_only_its_secret sample_tags_JSON
              sample_regions_JSON _ client sample_props sample_store
              (take 1 (trace client p sample_store))
              (drop 2 (trace client p sample_store))
              (Sent (exec (sops_command "ENC[AES256_GCM,data:...]" json))
                 (decrypt sample_env "")))
    as (_ & _ & Hline).
  - vm_compute. reflexivity.
  - exact (Hline _ eq_refl).
Defined.

(** A store whose update call is throttled: the upsert rejects with that
    exception. *)
Lemma upsertSecret_first_failure_witness :
  result (failing_on is_write quota_exceeded (store_client sample_env))
    (@upsertSecret sample_tags_JSON sample_regions_JSON sample_props)
    sample_store
  = inl quota_exceeded.
Proof.
  set (client := failing_on is_write quota_exceeded (store_client sample_env)).
  set (p := @upsertSecret sample_tags_JSON sample_regions_JSON sample_props).
  apply (@upsertSecret_first_failure sample_tags_JSON sample_regions_JSON _
           client sample_props sample_store
           (take 3 (trace client p sample_store)) []
           (Sent (UpdateSecretCommand sample_name None braces None)
              (inl quota_exceeded))
           quota_exceeded).
  - vm_compute. reflexivity.
  - reflexivity.
Defined.

(** With a decrypt step that prints a diagnostic, and texts that parse, the
    upsert rejects for one of the three reasons. *)
Lemma upsertSecret_rejection_causes_witness :
  ∃ i,
    last (trace (store_client failing_env)
            (@upsertSecret sample_tags_JSON sample_regions_JSON sample_props)
            sample_store) = Some i ∧
    (fatal i
       = Some (Error "sops command failed with: Failed to get the data key") ∨
     stream_error i
       = Some (Error "sops command failed with: Failed to get the data key") ∨
     diagnostic i
       = Some (Error "sops command failed with: Failed to get the data key")).
Proof.
  apply (@upsertSecret_rejection_causes sample_tags_JSON sample_regions_JSON
           _ (store_client failing_env) sample_props sample_store
           [("env", "prod")] []
           (Error "sops command failed with: Failed to get the data key")).
  - reflexivity.
  - reflexivity.
  - vm_compute. reflexivity.
Defined.

(** The sample upsert writes once. *)
Lemma upsertSecret_writes_once_witness :
  length
    (List.filter is_write
       (calls (store_client sample_env)
          (@upsertSecret sample_tags_JSON sample_regions_JSON sample_props)
          sample_store)) = 1.
Proof.
  destruct (@upsertSecret_writes_once sample_tags_JSON sample_regions_JSON _
              (store_client sample_env) sample_props sample_store)
    as (_ & _ & Hresolved).
  apply Hresolved. vm_compute. reflexivity.
Defined.

(** The tags text [env=prod] is not JSON: the upsert updates the value and
    rejects with the syntax error. *)
Lemma upsertSecret_malformed_tags_after_write_witness :
  result (store_client sample_env)
    (@upsertSecret sample_tags_JSON sample_regions_JSON malformed_tags_props)
    sample_store
  = inl (SyntaxError "Unexpected token in JSON").
Proof.
  destruct (@upsertSecret_malformed_tags_after_write sample_tags_JSON
              sample_regions_JSON _ (store_client sample_env)
              malformed_tags_props sample_store
              (SyntaxError "Unexpected token in JSON"))
    as (_ & _ & Hwritten).
  - reflexivity.
  - apply (Hwritten (Sent (UpdateSecretCommand sample_name None braces None)
                       (inr tt))).
    + vm_compute. reflexivity.
    + reflexivity.
    + reflexivity.
Defined.

(** The regions text [us-east-1] is not JSON: the upsert rejects with the
    syntax error after the policy call. *)
Lemma upsertSecret_malformed_regions_after_policy_witness :
  result (store_client sample_env)
    (@upsertSecret sample_tags_JSON sample_regions_JSON malformed_regions_props)
    sample_store
  = inl (SyntaxError "Unexpected token in JSON").
Proof.
  destruct (@upsertSecret_malformed_regions_after_policy sample_tags_JSON
              sample_regions_JSON _ (store_client sample_env)
              malformed_regions_props sample_store
              (SyntaxError "Unexpected token in JSON"))
    as (_ & _ & Hpolicy).
  - reflexivity.
  - apply (Hpolicy (Sent (DeleteResourcePolicyCommand sample_name)
                      (inl (ResourceNotFoundException "no policy attached")))).
    + vm_compute. reflexivity.
    + reflexivity.
    + reflexivity.
Defined.

(** The tag calls of the sample upsert: the untag of both existing keys,
    then the tag. *)
Lemma upsertSecret_tag_calls_witness :
  List.filter is_tagging
    (calls (store_client sample_env)
       (@upsertSecret sample_tags_JSON sample_regions_JSON sample_props)
       sample_store)
  = [UntagResourceCommand sample_name ["env"; "team"];
     TagResourceCommand sample_name [{| Key := "env"; Value := "prod" |}]].
Proof.
  destruct (@upsertSecret_tag_calls sample_tags_JSON sample_regions_JSON _
              (store_client sample_env) sample_props sample_store)
    as [_ Hresolved].
  destruct Hresolved as (desired & Hparse & Hcalls); [reflexivity|].
  rewrite Hcalls. injection Hparse as <-. reflexivity.
Defined.

(** The describe of the renaming Update names the secret of the
    properties. *)
Lemma handleUpdate_keeps_identity_witness :
  sample_name = SecretName (ResourceProperties' renaming_event).
Proof.
  destruct (@handleUpdate_keeps_identity sample_tags_JSON sample_regions_JSON
              _ (store_client sample_env) renaming_event sample_store)
    as (_ & _ & Hnames).
  apply (Hnames (Sent (DescribeSecretCommand sample_name)
                   (inr (describe sample_secret)))).
  - apply (list_elem_of_lookup_2 _ 2). vm_compute. reflexivity.
  - reflexivity.
Defined.

(** The Delete of the sample secret ends with the forced delete, which
    resolved. *)
Lemma handleDelete_outcome_witness :
  ∃ i,
    last (trace (store_client sample_env) (handleDelete delete_event)
            sample_store) = Some i ∧
    ((command_of i = DescribeSecretCommand sample_name ∧
      ∃ err, error_of i = Some err ∧
             instanceof_ResourceNotFoundException err = true) ∨
     (command_of i = DeleteSecretCommand sample_name true ∧
      error_of i = None)).
Proof.
  destruct (handleDelete_outcome (store_client sample_env) delete_event
              sample_store) as (_ & Hresolved & _).
  destruct (Hresolved {| PhysicalResourceId := sample_name |}) as [_ Hlast].
  - vm_compute. reflexivity.
  - exact Hlast.
Defined.

(** A throttled describe is the rejection of the Delete. *)
Lemma handleDelete_other_describe_answers_witness :
  run (failing_on is_describe quota_exceeded (store_client sample_env))
    (handleDelete delete_event) sample_store
  = (inl quota_exceeded, sample_store,
     [Sent (DescribeSecretCommand sample_name) (inl quota_exceeded)]).
Proof.
  destruct (handleDelete_other_describe_answers
              (failing_on is_describe quota_exceeded (store_client sample_env))
              delete_event sample_store sample_store) as [Hother _].
  apply Hother; reflexivity.
Defined.

(** The replicated sample on the sample store: the secret ends with the
    trimmed plaintext, the tag [env: prod] and the one replica region. *)
Lemma upsertSecret_reconciles_secret_witness :
  ∃ s,
    final (store_client sample_env)
      (@upsertSecret sample_tags_JSON sample_regions_JSON replicated_props)
      sample_store !! sample_name = Some s ∧
    secret_value s = braces ∧
    secret_tags s = list_to_map [("env", "prod")] ∧
    dom (secret_replicas s) = list_to_set ["us-east-1"].
Proof.
  destruct (@upsertSecret_reconciles_secret sample_tags_JSON
              sample_regions_JSON sample_env replicated_props sample_store
              "ENC[AES256_GCM,data:...]"
              sample_output
              [("env", "prod")]
              [{| region := "us-east-1"; kmsKeyId := None |}])
    as (_ & s & Hs & Hvalue & Htags & _ & Hregions & _).
  - reflexivity.
  - reflexivity.
  - reflexivity.
  - reflexivity.
  - reflexivity.
  - apply (bool_decide_unpack _). vm_compute. exact I.
  - simpl. lia.
  - exists s. split_and!; [exact Hs | exact Hvalue | exact Htags | exact Hregions].
Defined.

(** A second upsert of the replicated sample leaves the store of the
    first. *)
Lemma upsertSecret_twice_is_once_witness :
  final (store_client sample_env)
    (@upsertSecret sample_tags_JSON sample_regions_JSON replicated_props)
    (final (store_client sample_env)
       (@upsertSecret sample_tags_JSON sample_regions_JSON replicated_props)
       sample_store)
  = final (store_client sample_env)
      (@upsertSecret sample_tags_JSON sample_regions_JSON replicated_props)
      sample_store.
Proof.
  destruct (@upsertSecret_twice_is_once sample_tags_JSON sample_regions_JSON
              sample_env replicated_props sample_store
              "ENC[AES256_GCM,data:...]"
              sample_output
              [("env", "prod")]
              [{| region := "us-east-1"; kmsKeyId := None |}])
    as (_ & _ & Hsame).
  - reflexivity.
  - reflexivity.
  - reflexivity.
  - reflexivity.
  - reflexivity.
  - apply (bool_decide_unpack _). vm_compute. exact I.
  - simpl. lia.
  - exact Hsame.
Defined.

(** An Update of the sample secret leaves a secret of another name alone. *)
Lemma onEvent_leaves_other_secrets_witness :
  final (store_client sample_env)
    (@onEvent sample_tags_JSON sample_regions_JSON (sample_event "Update"))
    (<["/sops/other-secret" := sample_secret]> sample_store)
    !! "/sops/other-secret"
  = Some sample_secret.
Proof.
  rewrite (@onEvent_leaves_other_secrets sample_tags_JSON sample_regions_JSON
             sample_env (sample_event "Update")
             (<["/sops/other-secret" := sample_secret]> sample_store)
             "/sops/other-secret").
  - vm_compute. reflexivity.
  - vm_compute. discriminate.
Defined.

(** The sample declaration is accepted on a fresh tracker. *)
Lemma SopsSecret_accepts_iff_witness :
  ∃ declared,
    (@SopsSecret sample_tags_Stringify sample_regions_Stringify
       sample_policy_Stringify sample_extname sample_Asset_new
       sample_stack sample_declaration ∅).1 = inr declared.
Proof.
  destruct (@SopsSecret_accepts_iff sample_tags_Stringify
              sample_regions_Stringify sample_policy_Stringify sample_extname
              sample_Asset_new sample_stack sample_declaration ∅)
    as ([_ Haccepts] & _).
  apply Haccepts. split; [vm_compute; reflexivity|].
  split; [simpl; lia|].
  right. apply (bool_decide_unpack _). vm_compute. exact I.
Defined.

(** A declaration that fails for its file type takes the name: the sample
    declaration, of the same name, is then refused. *)
Lemma SopsSecret_name_stays_taken_witness :
  (@SopsSecret sample_tags_Stringify sample_regions_Stringify
     sample_policy_Stringify sample_extname sample_Asset_new
     sample_stack untyped_declaration ∅).1
    = inl (Error "Could not infer file type from file name") ∧
  (@SopsSecret sample_tags_Stringify sample_regions_Stringify
     sample_policy_Stringify sample_extname sample_Asset_new
     sample_stack sample_declaration
     (@SopsSecret sample_tags_Stringify sample_regions_Stringify
        sample_policy_Stringify sample_extname sample_Asset_new
        sample_stack untyped_declaration ∅).2).1
    = inl (Error "SopsSecret must have unique secretName").
Proof.
  split; [vm_compute; reflexivity|].
  destruct (@SopsSecret_name_stays_taken sample_tags_Stringify
              sample_regions_Stringify sample_policy_Stringify sample_extname
              sample_Asset_new sample_stack sample_stack untyped_declaration
              sample_declaration ∅ eq_refl) as [Htaken _].
  rewrite Htaken; reflexivity.
Defined.

(** The two sample declarations are accepted together. *)
Lemma SopsSecrets_accepts_iff_witness :
  ∃ declared,
    (@SopsSecrets sample_tags_Stringify sample_regions_Stringify
       sample_policy_Stringify sample_extname sample_Asset_new
       sample_stack [sample_declaration; other_declaration] ∅).1
    = inr declared.
Proof.
  apply (@SopsSecrets_accepts_iff sample_tags_Stringify
           sample_regions_Stringify sample_policy_Stringify sample_extname
           sample_Asset_new [sample_declaration; other_declaration]
           sample_stack ∅).
  split; [|split].
  - apply (bool_decide_unpack _). vm_compute. exact I.
  - apply Forall_cons_2; [vm_compute; reflexivity|].
    apply Forall_cons_2; [vm_compute; reflexivity|]. apply Forall_nil_2.
  - apply Forall_cons_2.
    { split; [simpl; lia|].
      right. apply (bool_decide_unpack _). vm_compute. exact I. }
    apply Forall_cons_2; [|apply Forall_nil_2].
    split; [simpl; lia|].
    right. apply (bool_decide_unpack _). vm_compute. exact I.
Defined.

(** The two sample declarations share a provider whose role has the Secrets
    Manager statement and three key statements. *)
Lemma SopsSecrets_share_one_provider_witness :
  ∃ provider,
    (if (@SopsSecrets sample_tags_Stringify sample_regions_Stringify
           sample_policy_Stringify sample_extname sample_Asset_new
           sample_stack [sample_declaration; other_declaration] ∅).1
        is inr (stack', _)
     then SecretCreatorProvider stack'
     else None) = Some provider ∧
    rolePolicy (onEventHandler provider)
      = [secretsmanager_statement;
         kms_statement sample_key_arn;
         kms_statement sample_key_arn;
         kms_statement "arn:aws:kms:ap-southeast-2:123456789123:key/sm"].
Proof.
  set (synthesis :=
         @SopsSecrets sample_tags_Stringify sample_regions_Stringify
           sample_policy_Stringify sample_extname sample_Asset_new
           sample_stack [sample_declaration; other_declaration] ∅).
  set (stack' := if synthesis.1 is inr (stack', _) then stack'
                 else sample_stack).
  set (resources := if synthesis.1 is inr (_, resources) then resources
                    else []).
  destruct (@SopsSecrets_share_one_provider sample_tags_Stringify
              sample_regions_Stringify sample_policy_Stringify sample_extname
              sample_Asset_new [sample_declaration; other_declaration]
              sample_stack stack' ∅ synthesis.2 resources)
    as (_ & provider & Hprovider & _ & Hrole & _).
  - reflexivity.
  - discriminate.
  - vm_compute. reflexivity.
  - exists provider. split; [|exact Hrole].
    etrans; [|exact Hprovider]. vm_compute. reflexivity.
Defined.

(** The sample declaration, constructed and then created on the empty
    store, leaves the declared tag on the secret. *)
Lemma declared_secret_reaches_store_witness :
  ∃ s,
    final (store_client sample_env)
      (@handleCreate sample_tags_JSON sample_regions_JSON
         (sample_event "Create")) ∅ !! sample_name = Some s ∧
    secret_value s = braces ∧
    secret_tags s = list_to_map [("env", "prod")].
Proof.
  destruct (@declared_secret_reaches_store sample_tags_JSON
               sample_regions_JSON sample_tags_Stringify
               sample_regions_Stringify sample_policy_Stringify sample_extname
               sample_Asset_new sample_env sample_stack
               {| stackId := "SecretsManagementStack";
                  SecretCreatorProvider :=
                    Some (grantRead (sample_Asset_new "secrets/sample-secret.json")
                            (addToRolePolicy (kms_statement sample_key_arn)
                               (getOrCreateProvider sample_stack))) |}
               sample_declaration ∅
               (<[trackingKey sample_stack sample_declaration := true]> ∅)
               sample_props (sample_event "Create") ∅
               "ENC[AES256_GCM,data:...]"
               sample_output)
    as (_ & s & Hs & Hvalue & Htags & _).
  - vm_compute. reflexivity.
  - reflexivity.
  - intros tags [= <-]. split; [discriminate|reflexivity].
  - intros regions [=].
  - reflexivity.
  - reflexivity.
  - reflexivity.
  - apply (bool_decide_unpack _). vm_compute. exact I.
  - exists s. split_and!; [exact Hs | exact Hvalue | exact Htags].
Defined.

(** A Create of the sample on the empty store and a Delete of the physical
    id it returned give the empty store back. *)
Lemma create_then_delete_restores_witness :
  final (store_client sample_env) (handleDelete delete_event)
    (final (store_client sample_env)
       (@handleCreate sample_tags_JSON sample_regions_JSON
          (sample_event "Create")) ∅)
  = ∅.
Proof.
  destruct (@create_then_delete_restores sample_tags_JSON sample_regions_JSON
              sample_env (sample_event "Create") ∅
              "ENC[AES256_GCM,data:...]"
              sample_output
              [("env", "prod")] [])
    as (response & Hcreated & Hdelete).
  - reflexivity.
  - reflexivity.
  - reflexivity.
  - reflexivity.
  - reflexivity.
  - apply (bool_decide_unpack _). vm_compute. exact I.
  - simpl. lia.
  - vm_compute. reflexivity.
  - vm_compute in Hcreated. injection Hcreated as <-.
    destruct (Hdelete delete_event eq_refl) as [_ Hrestored].
    exact Hrestored.
Defined.

(** The renaming Update leaves the secret of the former name in place. *)
Lemma handleUpdate_rename_keeps_old_secret_witness :
  final (store_client sample_env)
    (@handleUpdate sample_tags_JSON sample_regions_JSON renaming_event)
    {[ "/sops/former-name" := sample_secret ]} !! "/sops/former-name"
  = Some sample_secret.
Proof.
  destruct (@handleUpdate_rename_keeps_old_secret sample_tags_JSON
              sample_regions_JSON sample_env renaming_event
              {[ "/sops/former-name" := sample_secret ]}
              "ENC[AES256_GCM,data:...]"
              sample_output
              [("env", "prod")] [])
    as (_ & _ & Hold).
  - reflexivity.
  - reflexivity.
  - reflexivity.
  - reflexivity.
  - reflexivity.
  - apply (bool_decide_unpack _). vm_compute. exact I.
  - simpl. lia.
  - vm_compute. discriminate.
  - etrans; [exact Hold|]. vm_compute. reflexivity.
Defined.
